(** * Template-to-link pipeline of the email template generator (app.py)

    A shallow embedding of the five pure functions of [app.py]:
    [extract_subject_and_body], [extract_placeholders],
    [replace_placeholders], [create_outlook_web_link] and
    [create_calendar_meeting_link], together with the Python string
    primitives they call, followed by the properties of the pipeline.

    Python strings are modelled as lists of characters.  A character is an
    8-bit code, read as a code point of the range U+0000..U+00FF; the
    character classes ([str.isspace], [str.lower]) and the UTF-8 encoding
    performed by [urllib.parse.quote] are those of Python on that range. *)

From Stdlib Require Import String Ascii Bool Arith Lia List.
Import ListNotations.
Local Open Scope list_scope.

(* ===================================================================== *)
(** * Part I: definitions *)
(* ===================================================================== *)

(** ** Strings and literals *)

Definition str := list ascii.

Definition nl : ascii := "010"%char.
Definition lbrace : ascii := "{"%char.
Definition rbrace : ascii := "}"%char.

(** A Python string literal: the two characters backslash, n stand for a
    line feed, as in the source text of [app.py]. *)
Fixpoint unescape (s : str) : str :=
  match s with
  | [] => []
  | c :: rest =>
      match c, rest with
      | "\"%char, "n"%char :: rest' => nl :: unescape rest'
      | _, _ => c :: unescape rest
      end
  end.

Definition py (s : string) : str := unescape (list_ascii_of_string s).

(** ** Character classes *)

(** [str.isspace] on one character: TAB..CR, FS..US, space, NEL, NBSP. *)
Definition isspace (c : ascii) : bool :=
  let n := nat_of_ascii c in
  ((9 <=? n) && (n <=? 13)) || ((28 <=? n) && (n <=? 32))
  || (n =? 133) || (n =? 160).

(** [str.lower] on one character: A..Z and the accented capitals
    U+00C0..U+00DE (the multiplication sign U+00D7 excepted) move up by 32. *)
Definition lower_char (c : ascii) : ascii :=
  let n := nat_of_ascii c in
  if ((65 <=? n) && (n <=? 90))
     || ((192 <=? n) && (n <=? 222) && negb (n =? 215))
  then ascii_of_nat (n + 32) else c.

Definition lower (s : str) : str := map lower_char s.

(** ** String primitives *)

(** [s.lstrip()], [s.rstrip()], [s.strip()] *)
Fixpoint lstrip (s : str) : str :=
  match s with
  | [] => []
  | c :: s' => if isspace c then lstrip s' else s
  end.

Definition rstrip (s : str) : str := rev (lstrip (rev s)).

Definition strip (s : str) : str := rstrip (lstrip s).

(** [s.startswith(prefix)] *)
Fixpoint startswith (s prefix : str) {struct prefix} : bool :=
  match prefix with
  | [] => true
  | p :: prefix' =>
      match s with
      | [] => false
      | c :: s' => Ascii.eqb c p && startswith s' prefix'
      end
  end.

(** [sub in s] *)
Fixpoint occurs (sub s : str) : bool :=
  startswith s sub ||
  match s with
  | [] => false
  | _ :: s' => occurs sub s'
  end.

(** [s.split(sep)] for a one-character separator: never empty,
    [''.split(sep) = ['']]. *)
Fixpoint split_char (sep : ascii) (s : str) : list str :=
  match s with
  | [] => [[]]
  | c :: s' =>
      if Ascii.eqb c sep then [] :: split_char sep s'
      else match split_char sep s' with
           | [] => [[c]]
           | l :: ls => (c :: l) :: ls
           end
  end.

(** [s.partition(sep)] without the separator, [None] when [sep] is absent. *)
Fixpoint break_at (sep : ascii) (s : str) : option (str * str) :=
  match s with
  | [] => None
  | c :: s' =>
      if Ascii.eqb c sep then Some ([], s')
      else match break_at sep s' with
           | Some (a, b) => Some (c :: a, b)
           | None => None
           end
  end.

(** [s.split(sep, 1)]: at most one cut. *)
Definition split_once (sep : ascii) (s : str) : list str :=
  match break_at sep s with
  | Some (a, b) => [a; b]
  | None => [s]
  end.

(** [sep.join(parts)] *)
Fixpoint join (sep : str) (parts : list str) : str :=
  match parts with
  | [] => []
  | p :: rest =>
      match rest with
      | [] => p
      | _ :: _ => p ++ sep ++ join sep rest
      end
  end.

(** [s.replace(old, new)]: scan from the left; where [old] starts, emit
    [new] and jump over the occurrence, otherwise copy one character.  The
    fuel is the number of scan steps, at most [length s + 1]. *)
Fixpoint replace_scan (fuel : nat) (old new s : str) : str :=
  match fuel with
  | 0 => s
  | S fuel' =>
      if startswith s old then new ++ replace_scan fuel' old new (skipn (length old) s)
      else match s with
           | [] => []
           | c :: s' => c :: replace_scan fuel' old new s'
           end
  end.

Definition replace (old new s : str) : str :=
  match old with
  | [] => new ++ flat_map (fun c => c :: new) s
  | _ :: _ => replace_scan (S (length s)) old new s
  end.

(** ** Regular expression [\{([^}]+)\}] *)

(** The longest run of characters other than [}] and what follows it:
    the greedy [[^}]+]. *)
Fixpoint span_name (s : str) : str * str :=
  match s with
  | [] => ([], [])
  | c :: s' =>
      if Ascii.eqb c rbrace then ([], s)
      else let (n, r) := span_name s' in (c :: n, r)
  end.

(** One attempt to match the pattern at the head of [s]: the captured
    group and the text after the match. *)
Definition match_placeholder (s : str) : option (str * str) :=
  match s with
  | c :: s' =>
      if Ascii.eqb c lbrace then
        match span_name s' with
        | ((_ :: _) as name, r :: rest) =>
            if Ascii.eqb r rbrace then Some (name, rest) else None
        | _ => None
        end
      else None
  | [] => None
  end.

(** [re.findall]: leftmost matches, not overlapping; after a match the
    search resumes behind it, after a failure one character further. *)
Fixpoint findall_scan (fuel : nat) (s : str) : list str :=
  match fuel with
  | 0 => []
  | S fuel' =>
      match s with
      | [] => []
      | _ :: s' =>
          match match_placeholder s with
          | Some (name, rest) => name :: findall_scan fuel' rest
          | None => findall_scan fuel' s'
          end
      end
  end.

Definition findall (s : str) : list str := findall_scan (length s) s.

(** ** The template parser: [extract_subject_and_body] *)

Definition str_eq_dec : forall a b : str, {a = b} + {a <> b} :=
  list_eq_dec ascii_dec.

(** The test of the loop: [line.strip().lower().startswith('subject:')]. *)
Definition is_subject_line (line : str) : bool :=
  startswith (lower (strip line)) (py "subject:").

(** The three loop variables. *)
Record parse_state := {
  st_subject : str;
  st_body_lines : list str;
  st_subject_found : bool
}.

(** One iteration of [for line in lines].  [line.split(':', 1)[1]] raises
    [IndexError] when the list has one element: [None]. *)
Definition parse_line (st : parse_state) (line : str) : option parse_state :=
  if is_subject_line line then
    match nth_error (split_once ":"%char line) 1 with
    | Some rest =>
        Some {| st_subject := strip rest;
                st_body_lines := st_body_lines st;
                st_subject_found := true |}
    | None => None
    end
  else if st_subject_found st then
    Some {| st_subject := st_subject st;
            st_body_lines := st_body_lines st ++ [line];
            st_subject_found := st_subject_found st |}
  else
    Some {| st_subject := st_subject st;
            st_body_lines := st_body_lines st ++ [line];
            st_subject_found := st_subject_found st |}.

Fixpoint parse_lines (st : parse_state) (lines : list str) : option parse_state :=
  match lines with
  | [] => Some st
  | line :: lines' =>
      match parse_line st line with
      | Some st' => parse_lines st' lines'
      | None => None
      end
  end.

Definition extract_subject_and_body (content : str) : option (str * str) :=
  let lines := split_char nl content in
  let st0 := {| st_subject := []; st_body_lines := []; st_subject_found := false |} in
  match parse_lines st0 lines with
  | Some st => Some (st_subject st, strip (join [nl] (st_body_lines st)))
  | None => None
  end.

(** ** The placeholder extractor: [extract_placeholders] *)

(** The loop variables: the set [seen] and the list
    [unique_placeholders]. *)
Record dedup_state := {
  seen : list str;
  unique_placeholders : list str
}.

Definition dedup_step (st : dedup_state) (ph : str) : dedup_state :=
  if in_dec str_eq_dec ph (seen st) then st
  else {| seen := ph :: seen st;
          unique_placeholders := unique_placeholders st ++ [ph] |}.

Definition extract_placeholders (text : str) : list str :=
  let placeholders := findall text in
  unique_placeholders
    (fold_left dedup_step placeholders {| seen := []; unique_placeholders := [] |}).

(** ** The placeholder substitutor: [replace_placeholders] *)

(** A Python [dict] of strings, in insertion order; [values.items()] and
    [params.items()] enumerate it from the head. *)
Definition dict := list (str * str).

(** [d[k] = v]: overwrite in place, or append a new key. *)
Fixpoint dict_set (d : dict) (k v : str) : dict :=
  match d with
  | [] => [(k, v)]
  | (k', v') :: d' =>
      if str_eq_dec k k' then (k, v) :: d' else (k', v') :: dict_set d' k v
  end.

Definition keys (d : dict) : list str := map fst d.

(** [f"{{{placeholder}}}"] *)
Definition token (placeholder : str) : str := lbrace :: placeholder ++ [rbrace].

Definition replace_placeholders (text : str) (values : dict) : str :=
  fold_left (fun result kv => replace (token (fst kv)) (snd kv) result) values text.

(** ** [urllib.parse.quote] with its default [safe='/'] *)

Definition in_range (lo hi : nat) (c : ascii) : bool :=
  (lo <=? nat_of_ascii c) && (nat_of_ascii c <=? hi).

(** Letters, digits and [_.-~] are never quoted. *)
Definition always_safe (b : ascii) : bool :=
  in_range 65 90 b || in_range 97 122 b || in_range 48 57 b
  || Ascii.eqb b "_"%char || Ascii.eqb b "."%char
  || Ascii.eqb b "-"%char || Ascii.eqb b "~"%char.

Definition hex_digit (n : nat) : ascii :=
  nth n (list_ascii_of_string "0123456789ABCDEF") "0"%char.

(** The UTF-8 encoding of one code point below U+0100. *)
Definition utf8 (c : ascii) : list ascii :=
  let n := nat_of_ascii c in
  if n <? 128 then [c]
  else [ascii_of_nat (192 + n / 64); ascii_of_nat (128 + n mod 64)].

Definition quote_byte (b : ascii) : str :=
  if always_safe b || Ascii.eqb b "/"%char then [b]
  else ["%"%char; hex_digit (nat_of_ascii b / 16); hex_digit (nat_of_ascii b mod 16)].

Definition quote (s : str) : str := flat_map quote_byte (flat_map utf8 s).

(** ** The deep-link encoders *)

(** Truth value of a string in [if to:]. *)
Definition truthy (s : str) : bool :=
  match s with [] => false | _ :: _ => true end.

(** [f"{k}={v}"] *)
Definition format_param (kv : str * str) : str := fst kv ++ py "=" ++ snd kv.

Definition create_outlook_web_link (subject body to cc bcc : str) : str :=
  let body_encoded := replace (py "\n") (py "%0D%0A") body in
  let params := dict_set (dict_set [] (py "subject") (quote subject))
                         (py "body") body_encoded in
  let params := if truthy to then dict_set params (py "to") (quote to)
                else params in
  let params := if truthy cc then dict_set params (py "cc") (quote cc)
                else params in
  let params := if truthy bcc then dict_set params (py "bcc") (quote bcc)
                else params in
  let query_string := join (py "&") (map format_param params) in
  py "https://outlook.office.com/mail/deeplink/compose?" ++ query_string.

(** A naive [datetime]: the fields that [strftime] reads. *)
Record datetime := {
  year : nat; month : nat; day : nat;
  hour : nat; minute : nat; second : nat
}.

(** Decimal digits of fixed position. *)
Definition digit (n : nat) : ascii := ascii_of_nat (48 + n mod 10).

(** [n] in decimal, as [%d] prints it: the digits of [n / 10], when there
    are any, then the last digit.  The fuel bounds the number of digits. *)
Fixpoint decimal_digits (fuel n : nat) : str :=
  match fuel with
  | 0 => []
  | S fuel' =>
      (if n <? 10 then [] else decimal_digits fuel' (n / 10)) ++ [digit n]
  end.

Definition decimal (n : nat) : str := decimal_digits (S n) n.

Definition zero_pad (width : nat) (s : str) : str :=
  repeat "0"%char (width - length s) ++ s.

(** [d.strftime('%Y-%m-%dT%H:%M:%S')]: every field in decimal, padded with
    zeros to its width ([%Y] to four digits, as documented). *)
Definition strftime_iso (d : datetime) : str :=
  zero_pad 4 (decimal (year d)) ++ py "-" ++
  zero_pad 2 (decimal (month d)) ++ py "-" ++
  zero_pad 2 (decimal (day d)) ++ py "T" ++
  zero_pad 2 (decimal (hour d)) ++ py ":" ++
  zero_pad 2 (decimal (minute d)) ++ py ":" ++
  zero_pad 2 (decimal (second d)).

Definition create_calendar_meeting_link
    (subject body attendees : str) (start_time end_time : datetime)
    (location : str) : str :=
  let start_iso := strftime_iso start_time in
  let end_iso := strftime_iso end_time in
  let html_body := replace (py "\n") (py "<br>")
                     (replace (py "\n\n") (py "</p><p>") body) in
  let html_body := py "<p>" ++ html_body ++ py "</p>" in
  let params :=
    dict_set (dict_set (dict_set (dict_set (dict_set []
      (py "subject") (quote subject))
      (py "body") (quote html_body))
      (py "startdt") (quote start_iso))
      (py "enddt") (quote end_iso))
      (py "path") (py "/calendar/action/compose") in
  let params := if truthy attendees
                then dict_set params (py "to") (quote attendees) else params in
  let params := if truthy location
                then dict_set params (py "location") (quote location) else params in
  let query_string := join (py "&") (map format_param params) in
  py "https://outlook.office.com/calendar/0/deeplink/compose?" ++ query_string.

(** ** Notions used to state the properties *)

Definition brace_free (s : str) : Prop := ~ In lbrace s /\ ~ In rbrace s.

(** [l.index(x)], the position of the first occurrence. *)
Fixpoint first_index (x : str) (l : list str) : nat :=
  match l with
  | [] => 0
  | y :: l' => if str_eq_dec x y then 0 else S (first_index x l')
  end.

(** The text of a subject line behind its first colon. *)
Definition after_first_colon (line : str) : str :=
  match break_at ":"%char line with
  | Some (_, rest) => rest
  | None => []
  end.

(** The subject that the lines of a template determine: the one of the
    last subject line, the empty string when there is none. *)
Definition subject_of_lines (lines : list str) : str :=
  match rev (filter is_subject_line lines) with
  | [] => []
  | line :: _ => strip (after_first_colon line)
  end.

Definition body_of_lines (lines : list str) : str :=
  strip (join [nl] (filter (fun line => negb (is_subject_line line)) lines)).

(** The parser as section 4.1 of the specification words it: only the
    first subject line sets the subject and is left out of the body. *)
Fixpoint parse_first_marker_lines (lines : list str) : str * list str :=
  match lines with
  | [] => ([], [])
  | line :: lines' =>
      if is_subject_line line then (strip (after_first_colon line), lines')
      else let (subject, body_lines) := parse_first_marker_lines lines' in
           (subject, line :: body_lines)
  end.

Definition parse_first_marker (content : str) : str * str :=
  let (subject, body_lines) := parse_first_marker_lines (split_char nl content) in
  (subject, strip (join [nl] body_lines)).

(** The body parameter of the mail link as section 4.4 words it:
    percent-encoded, every newline rendered as [%0D%0A]. *)
Definition body_percent_encoded (body : str) : str :=
  join (py "%0D%0A") (map quote (split_char nl body)).

Definition optional_param (key value : str) : str :=
  if truthy value then py "&" ++ key ++ py "=" ++ quote value else [].

(** The mail link of section 6 of the specification. *)
Definition mail_link_as_specified (subject body to cc bcc : str) : str :=
  py "https://outlook.office.com/mail/deeplink/compose?" ++
  py "subject=" ++ quote subject ++
  py "&body=" ++ body_percent_encoded body ++
  optional_param (py "to") to ++
  optional_param (py "cc") cc ++
  optional_param (py "bcc") bcc.

(** What the mail encoder puts behind [body=]. *)
Definition body_newlines_escaped (body : str) : str :=
  join (py "%0D%0A") (split_char nl body).

(** The body of the calendar link: minimal HTML. *)
Definition html_of_body (body : str) : str :=
  py "<p>" ++
  replace (py "\n") (py "<br>") (replace (py "\n\n") (py "</p><p>") body) ++
  py "</p>".

(** The calendar link with a given value of its [path] parameter. *)
Definition calendar_link_with_path
    (path subject body attendees : str) (start_time end_time : datetime)
    (location : str) : str :=
  py "https://outlook.office.com/calendar/0/deeplink/compose?" ++
  py "subject=" ++ quote subject ++
  py "&body=" ++ quote (html_of_body body) ++
  py "&startdt=" ++ quote (strftime_iso start_time) ++
  py "&enddt=" ++ quote (strftime_iso end_time) ++
  py "&path=" ++ path ++
  optional_param (py "to") attendees ++
  optional_param (py "location") location.

(** The calendar link of section 6 of the specification. *)
Definition calendar_link_as_specified :=
  calendar_link_with_path (py "%2Fcalendar%2Faction%2Fcompose").

(** Decimal digits of fixed width. *)
Definition digits2 (n : nat) : str := [digit (n / 10); digit n].

Definition digits4 (n : nat) : str :=
  [digit (n / 1000); digit (n / 100); digit (n / 10); digit n].

(** [YYYY-MM-DDTHH:MM:SS] after percent-encoding: the colons are quoted. *)
Definition iso_quoted (d : datetime) : str :=
  digits4 (year d) ++ py "-" ++ digits2 (month d) ++ py "-" ++
  digits2 (day d) ++ py "T" ++ digits2 (hour d) ++ py "%3A" ++
  digits2 (minute d) ++ py "%3A" ++ digits2 (second d).

#[local] Set Warnings "-abstract-large-number".

(** A [datetime] whose year has four digits; below 1000 the padding of
    [%Y] depends on the C library. *)
Definition four_digit_datetime (d : datetime) : Prop :=
  1000 <= year d <= 9999 /\ 1 <= month d <= 12 /\ 1 <= day d <= 31 /\
  hour d <= 23 /\ minute d <= 59 /\ second d <= 59.

(** Texts without nested braces.  [flat K s]: scanning [s] from the left,
    every [{] either has no [}] behind it, or opens a segment [{name}]
    whose name holds no brace and belongs to [K]. *)
Inductive flat (K : list str) : str -> Prop :=
| flat_nil : flat K []
| flat_char c s : c <> lbrace -> flat K s -> flat K (c :: s)
| flat_open s : ~ In rbrace s -> flat K (lbrace :: s)
| flat_name name s :
    ~ In lbrace name -> ~ In rbrace name -> In name K -> flat K s ->
    flat K (lbrace :: name ++ rbrace :: s).

(** ** Concrete inputs *)

(** A template with a placeholder nested in another one, and the values a
    user enters for its two placeholders. *)
Definition nested_text : str := py "{b}{a{b}}".
Definition nested_values : dict := [(py "b", py "y"); (py "a{b", py "x")].

(** A placeholder in double braces whose value is its own name. *)
Definition doubled_text : str := py "{{a}}".
Definition doubled_values : dict := [(py "a", py "a")].

(** A placeholder name that another, mapped name ends. *)
Definition overlap_text : str := py "{a{b}".
Definition overlap_values : dict := [(py "b", py "x")].

(** Two subject lines. *)
Definition two_subjects : str := py "Subject: A\nSubject: B\nx".

(** A placeholder that runs over the end of the subject line. *)
Definition split_placeholder : str := py "Subject: {a\nb}".

Definition noon : datetime :=
  {| year := 2025; month := 3; day := 9; hour := 12; minute := 0; second := 0 |}.

(** ** The document loader: [read_docx] *)



(** ** The main script: template names *)

(** [format_func] of the template selector:
    [x.replace('.docx', '').replace('_', ' ')]. *)
Definition format_func (x : str) : str :=
  replace (py "_") (py " ") (replace (py ".docx") (py "") x).

(** ** The main script: filling the template *)

(** The loop over the placeholders: [values[placeholder]] receives what
    the text input with key [placeholder] holds. *)
Definition collect_values (placeholders : list str) (text_input : str -> str)
  : dict :=
  fold_left (fun values placeholder =>
               dict_set values placeholder (text_input placeholder))
            placeholders [].

(** From the content of the template to [final_subject] and [final_body]
    (before the meeting details are appended). *)
Definition fill_template (content : str) (text_input : str -> str)
  : option (str * str) :=
  match extract_subject_and_body content with
  | Some (subject_text, body_text) =>
      let placeholders := extract_placeholders content in
      match placeholders with
      | _ :: _ =>
          let values := collect_values placeholders text_input in
          Some (replace_placeholders subject_text values,
                replace_placeholders body_text values)
      | [] => Some (subject_text, body_text)
      end
  | None => None
  end.

(** ** The main script: the meeting *)

Record date := { d_year : nat; d_month : nat; d_day : nat }.

(** A time of day; the microseconds, which the script never reads, are
    left out. *)
Record time := { t_hour : nat; t_minute : nat; t_second : nat }.

(** [datetime.combine(d, t)] *)
Definition combine (d : date) (t : time) : datetime :=
  {| year := d_year d; month := d_month d; day := d_day d;
     hour := t_hour t; minute := t_minute t; second := t_second t |}.

(** The options of the duration selector. *)
Inductive duration := Min30 | Min45 | Min60 | Min90 | Min120.

Definition minutes (d : duration) : nat :=
  match d with
  | Min30 => 30 | Min45 => 45 | Min60 => 60 | Min90 => 90 | Min120 => 120
  end.

Definition is_max_date (d : date) : bool :=
  (d_year d =? 9999) && (d_month d =? 12) && (d_day d =? 31).

(** [(datetime.combine(d, start) + timedelta(minutes=...)).time()]: the
    sum passes midnight at most once; it raises [OverflowError] when the
    next day is beyond the last date, [None]. *)
Definition meeting_end_of (d : date) (meeting_start : time) (dur : duration)
  : option time :=
  let total := t_hour meeting_start * 60 + t_minute meeting_start + minutes dur in
  if (1440 <=? total) && is_max_date d then None
  else Some {| t_hour := (total / 60) mod 24;
               t_minute := total mod 60;
               t_second := t_second meeting_start |}.

(** [meeting_start_time] and [meeting_end_time]: both on [meeting_date]. *)
Definition meeting_times (meeting_date : date) (meeting_start : time)
    (dur : duration) : option (datetime * datetime) :=
  match meeting_end_of meeting_date meeting_start dur with
  | Some meeting_end =>
      Some (combine meeting_date meeting_start, combine meeting_date meeting_end)
  | None => None
  end.

(** The options of the platform selector. *)
Inductive platform := Teams | Zoom | GoogleMeet | OtherPlatform.

Definition platform_name (p : platform) : str :=
  match p with
  | Teams => py "Microsoft Teams"
  | Zoom => py "Zoom"
  | GoogleMeet => py "Google Meet"
  | OtherPlatform => py "Other"
  end.

(** What the second column shows. *)
Inductive calendar_button :=
| CalendarLink (calendar_link : str)
| CalendarDisabled
| NoCalendarButton.

(** The calendar button.  [times] holds [meeting_start_time] and
    [meeting_end_time], which are [None] unless the template is the
    interview template; a [datetime] is always true. *)
Definition calendar_column (is_interview_template : bool)
    (times : option (datetime * datetime))
    (final_subject final_body meeting_attendees meeting_link : str)
    (meeting_platform : platform) : calendar_button :=
  match times with
  | Some (meeting_start_time, meeting_end_time) =>
      if is_interview_template && truthy meeting_attendees then
        CalendarLink
          (create_calendar_meeting_link final_subject final_body
             meeting_attendees meeting_start_time meeting_end_time
             (if truthy meeting_link then meeting_link
              else platform_name meeting_platform))
      else if is_interview_template then CalendarDisabled
      else NoCalendarButton
  | None =>
      if is_interview_template then CalendarDisabled else NoCalendarButton
  end.

(** ** Further notions *)

(** The characters that [quote] lets through or produces. *)
Definition url_char (c : ascii) : bool :=
  always_safe c || Ascii.eqb c "/"%char || Ascii.eqb c "%"%char.

(** The characters of a link: those of [quote] and the delimiters. *)
Definition link_char (c : ascii) : bool :=
  url_char c || Ascii.eqb c "&"%char || Ascii.eqb c "="%char
  || Ascii.eqb c "?"%char || Ascii.eqb c ":"%char.

(** Seconds since midnight. *)
Definition seconds_of_day (d : datetime) : nat :=
  hour d * 3600 + minute d * 60 + second d.

Definition same_date (a b : datetime) : Prop :=
  year a = year b /\ month a = month b /\ day a = day b.

(** White space only. *)
Definition all_space (w : str) : Prop := forall c, In c w -> isspace c = true.

(** [l] is [l'] with white space around it. *)
Definition padded (l' l : str) : Prop :=
  exists w1 w2, all_space w1 /\ all_space w2 /\ l = w1 ++ l' ++ w2.

(** ** Proof automation *)

(** Equalities between concatenations, up to associativity. *)
Ltac solve_app :=
  unfold token;
  repeat (progress (rewrite <- ?app_assoc; cbn [app]));
  reflexivity.

(** Membership in a concatenation. *)
Ltac solve_in :=
  unfold token; cbn [In app];
  repeat (rewrite in_app_iff; cbn [In app]);
  auto 10.

(** Closed membership goals. *)
Ltac decide_closed := vm_compute; intuition (discriminate || congruence).

Arguments replace : simpl never.
Arguments findall : simpl never.
Arguments token : simpl never.

(* ===================================================================== *)
(** * Part II: properties *)
(* ===================================================================== *)

(** ** Characters and prefixes *)

Lemma ascii_eqb_refl (c : ascii) : Ascii.eqb c c = true.
Proof. apply Ascii.eqb_eq. reflexivity. Qed.

Lemma lbrace_neq_rbrace : lbrace <> rbrace.
Proof. discriminate. Qed.

Lemma startswith_spec (p s : str) :
  startswith s p = true <-> exists r, s = p ++ r.
Proof.
  revert s. induction p as [|c p IH]; intros s; simpl.
  - split; [intros _; exists s; reflexivity | reflexivity].
  - destruct s as [|d s].
    + split; [discriminate | intros [r Hr]; discriminate].
    + rewrite andb_true_iff, Ascii.eqb_eq, IH. split.
      * intros [-> [r ->]]. exists r. reflexivity.
      * intros [r Hr]. injection Hr as -> ->. split; [reflexivity | exists r; reflexivity].
Qed.

Lemma startswith_app (p r : str) : startswith (p ++ r) p = true.
Proof. apply startswith_spec. exists r. reflexivity. Qed.

Lemma startswith_head (c d : ascii) (s p : str) :
  c <> d -> startswith (c :: s) (d :: p) = false.
Proof. intros H. simpl. apply Ascii.eqb_neq in H. rewrite H. reflexivity. Qed.

Lemma skipn_exact (p r : str) : skipn (length p) (p ++ r) = r.
Proof. induction p; simpl; auto. Qed.

Lemma occurs_spec (sub s : str) :
  occurs sub s = true <-> exists a b, s = a ++ sub ++ b.
Proof.
  induction s as [|c s IH]; simpl.
  - rewrite orb_false_r, startswith_spec. split.
    + intros [r Hr]. exists [], r. exact Hr.
    + intros [a [b H]]. destruct a; [exists b; exact H | discriminate].
  - rewrite orb_true_iff, startswith_spec, IH. split.
    + intros [[r Hr] | [a [b H]]].
      * exists [], r. exact Hr.
      * exists (c :: a), b. rewrite H. reflexivity.
    + intros [a [b H]]. destruct a as [|d a].
      * left. exists b. exact H.
      * right. injection H as _ H. exists a, b. exact H.
Qed.

Lemma occurs_intro (sub a b : str) : occurs sub (a ++ sub ++ b) = true.
Proof. apply occurs_spec. exists a, b. reflexivity. Qed.

Lemma occurs_false (sub s : str) :
  occurs sub s = false <-> forall a b, s <> a ++ sub ++ b.
Proof.
  split.
  - intros H a b E. rewrite E, occurs_intro in H. discriminate.
  - intros H. destruct (occurs sub s) eqn:E; [|reflexivity].
    apply occurs_spec in E. destruct E as [a [b E]]. elim (H a b E).
Qed.

Lemma occurs_app_l (sub s t : str) :
  occurs sub s = true -> occurs sub (s ++ t) = true.
Proof.
  rewrite !occurs_spec. intros [a [b ->]]. exists a, (b ++ t).
  rewrite <- !app_assoc. reflexivity.
Qed.

Lemma occurs_app_r (sub s t : str) :
  occurs sub t = true -> occurs sub (s ++ t) = true.
Proof.
  rewrite !occurs_spec. intros [a [b ->]]. exists (s ++ a), b.
  rewrite <- !app_assoc. reflexivity.
Qed.

(** Two ways to cut one list: one of the cuts comes first. *)
Lemma app_eq_app_cases (a b c d : str) :
  a ++ b = c ++ d ->
  (exists m, c = a ++ m /\ b = m ++ d) \/ (exists m, a = c ++ m /\ d = m ++ b).
Proof.
  revert c. induction a as [|x a IH]; intros c H; simpl in H.
  - left. exists c. split; [reflexivity | exact H].
  - destruct c as [|y c]; simpl in H.
    + right. exists (x :: a). split; [reflexivity | symmetry; exact H].
    + injection H as -> H. destruct (IH _ H) as [[m [-> ->]] | [m [-> ->]]].
      * left. exists m. split; reflexivity.
      * right. exists m. split; reflexivity.
Qed.

(** ** [str.replace] *)

Lemma replace_scan_fuel (old new : str) :
  old <> [] ->
  forall fuel fuel' s,
    length s < fuel -> length s < fuel' ->
    replace_scan fuel old new s = replace_scan fuel' old new s.
Proof.
  intros Hold. induction fuel as [|fuel IH]; intros fuel' s H1 H2; [lia|].
  destruct fuel' as [|fuel']; [lia|]. simpl.
  destruct (startswith s old) eqn:E.
  - f_equal. apply startswith_spec in E. destruct E as [r ->].
    rewrite skipn_exact. rewrite length_app in H1, H2.
    destruct old as [|o old]; [congruence|]. simpl in H1, H2.
    apply IH; lia.
  - destruct s as [|c s]; [reflexivity|]. simpl in H1, H2.
    f_equal. apply IH; lia.
Qed.

(** The scan of [replace], one step at a time. *)
Lemma replace_unfold (old new s : str) :
  old <> [] ->
  replace old new s =
  if startswith s old then new ++ replace old new (skipn (length old) s)
  else match s with
       | [] => []
       | c :: s' => c :: replace old new s'
       end.
Proof.
  intros Hold. destruct old as [|o old]; [congruence|].
  unfold replace.
  assert (U : forall f t,
    replace_scan (S f) (o :: old) new t =
    if startswith t (o :: old)
    then new ++ replace_scan f (o :: old) new (skipn (length (o :: old)) t)
    else match t with
         | [] => []
         | c :: t' => c :: replace_scan f (o :: old) new t'
         end) by reflexivity.
  rewrite (U (length s) s).
  destruct (startswith s (o :: old)) eqn:E.
  - f_equal. apply startswith_spec in E. destruct E as [r ->].
    rewrite skipn_exact. apply replace_scan_fuel; [discriminate| |lia].
    rewrite length_app. simpl. lia.
  - destruct s as [|c s]; reflexivity.
Qed.

Lemma replace_nil (old new : str) : old <> [] -> replace old new [] = [].
Proof.
  intros H. rewrite replace_unfold by exact H.
  destruct old; [congruence | reflexivity].
Qed.

Lemma replace_hit (old new r : str) :
  old <> [] -> replace old new (old ++ r) = new ++ replace old new r.
Proof.
  intros H. rewrite replace_unfold by exact H.
  rewrite startswith_app, skipn_exact. reflexivity.
Qed.

Lemma replace_miss (old new : str) (c : ascii) (s : str) :
  old <> [] -> startswith (c :: s) old = false ->
  replace old new (c :: s) = c :: replace old new s.
Proof.
  intros H E. rewrite replace_unfold by exact H. rewrite E. reflexivity.
Qed.

(** A text without any occurrence of [old] is returned as it is. *)
Lemma replace_absent (old new s : str) :
  old <> [] -> occurs old s = false -> replace old new s = s.
Proof.
  intros H. induction s as [|c s IH]; intros E.
  - apply replace_nil, H.
  - simpl in E. apply orb_false_iff in E. destruct E as [E1 E2].
    rewrite replace_miss by assumption. f_equal. apply IH, E2.
Qed.

Lemma token_not_nil (k : str) : token k <> [].
Proof. discriminate. Qed.

Lemma replace_token_char (k v : str) (c : ascii) (s : str) :
  c <> lbrace ->
  replace (token k) v (c :: s) = c :: replace (token k) v s.
Proof.
  intros H. apply replace_miss; [apply token_not_nil|].
  apply startswith_head, H.
Qed.

Lemma replace_token_plain (k v n s : str) :
  ~ In lbrace n ->
  replace (token k) v (n ++ s) = n ++ replace (token k) v s.
Proof.
  induction n as [|c n IH]; intros H; [reflexivity|].
  rewrite <- !app_comm_cons, replace_token_char.
  - f_equal. apply IH. intros F. apply H. right. exact F.
  - intros ->. apply H. left. reflexivity.
Qed.

Lemma token_has_rbrace (k : str) : In rbrace (token k).
Proof. unfold token. right. apply in_or_app. right. left. reflexivity. Qed.

Lemma token_absent_without_rbrace (k s : str) :
  ~ In rbrace s -> occurs (token k) s = false.
Proof.
  intros H. apply occurs_false. intros a b E. apply H. rewrite E.
  apply in_or_app. right. apply in_or_app. left. apply token_has_rbrace.
Qed.

(** ** The regular expression and [re.findall] *)

Lemma span_name_spec (s n r : str) :
  span_name s = (n, r) ->
  s = n ++ r /\ ~ In rbrace n /\ (r = [] \/ exists r', r = rbrace :: r').
Proof.
  revert n r. induction s as [|c s IH]; intros n r; simpl.
  - intros E. injection E as <- <-. auto.
  - destruct (Ascii.eqb c rbrace) eqn:Ec.
    + intros E. injection E as <- <-. apply Ascii.eqb_eq in Ec. subst c.
      repeat split; [auto | right; eauto].
    + destruct (span_name s) as [n' r'] eqn:Es. intros E. injection E as <- <-.
      destruct (IH _ _ eq_refl) as [-> [Hn Hr]]. apply Ascii.eqb_neq in Ec.
      repeat split; [| exact Hr]. intros [F | F]; [congruence | auto].
Qed.

Lemma span_name_app (n r : str) :
  ~ In rbrace n -> span_name (n ++ rbrace :: r) = (n, rbrace :: r).
Proof.
  induction n as [|c n IH]; intros H; simpl.
  - reflexivity.
  - destruct (Ascii.eqb c rbrace) eqn:Ec.
    + apply Ascii.eqb_eq in Ec. elim H. left. exact Ec.
    + rewrite IH; [reflexivity|]. intros F. apply H. right. exact F.
Qed.

Lemma span_name_open (s : str) : ~ In rbrace s -> span_name s = (s, []).
Proof.
  induction s as [|c s IH]; intros H; simpl; [reflexivity|].
  destruct (Ascii.eqb c rbrace) eqn:Ec.
  - apply Ascii.eqb_eq in Ec. elim H. left. exact Ec.
  - rewrite IH; [reflexivity|]. intros F. apply H. right. exact F.
Qed.

(** A match at the head of [s] is a non-empty name without [}] between
    braces. *)
Lemma match_placeholder_spec (s n rest : str) :
  match_placeholder s = Some (n, rest) <->
  s = lbrace :: n ++ rbrace :: rest /\ n <> [] /\ ~ In rbrace n.
Proof.
  split.
  - destruct s as [|c s]; simpl; [discriminate|].
    destruct (Ascii.eqb c lbrace) eqn:Ec; [|discriminate].
    apply Ascii.eqb_eq in Ec. subst c.
    destruct (span_name s) as [n' r'] eqn:Es.
    apply span_name_spec in Es. destruct Es as [-> [Hn Hr]].
    destruct n' as [|x n']; [discriminate|].
    destruct r' as [|y r']; [discriminate|].
    destruct (Ascii.eqb y rbrace) eqn:Ey; [|discriminate].
    apply Ascii.eqb_eq in Ey. subst y. intros E. injection E as <- <-.
    repeat split; [discriminate | exact Hn].
  - intros [-> [Hne Hn]]. simpl. rewrite span_name_app by exact Hn.
    destruct n as [|x n]; [congruence|]. reflexivity.
Qed.

Lemma match_placeholder_shorter (s n rest : str) :
  match_placeholder s = Some (n, rest) -> length rest < length s.
Proof.
  intros H. apply match_placeholder_spec in H. destruct H as [-> _].
  simpl. rewrite length_app. simpl. lia.
Qed.

Lemma match_placeholder_char (c : ascii) (s : str) :
  c <> lbrace -> match_placeholder (c :: s) = None.
Proof. intros H. simpl. apply Ascii.eqb_neq in H. rewrite H. reflexivity. Qed.

Lemma match_placeholder_open (s : str) :
  ~ In rbrace s -> match_placeholder (lbrace :: s) = None.
Proof.
  intros H. simpl. rewrite span_name_open by exact H.
  destruct s; reflexivity.
Qed.

Lemma match_placeholder_empty (s : str) :
  match_placeholder (lbrace :: rbrace :: s) = None.
Proof. reflexivity. Qed.

Lemma findall_scan_fuel :
  forall fuel fuel' s,
    length s <= fuel -> length s <= fuel' ->
    findall_scan fuel s = findall_scan fuel' s.
Proof.
  induction fuel as [|fuel IH]; intros fuel' s H1 H2.
  - destruct s; [|simpl in H1; lia]. destruct fuel'; reflexivity.
  - destruct fuel' as [|fuel'].
    + destruct s; [reflexivity | simpl in H2; lia].
    + simpl. destruct s as [|c s]; [reflexivity|].
      destruct (match_placeholder (c :: s)) as [[n rest]|] eqn:E.
      * f_equal. apply match_placeholder_shorter in E.
        apply IH; simpl in *; lia.
      * apply IH; simpl in *; lia.
Qed.

(** The search of [findall], one step at a time. *)
Lemma findall_unfold (c : ascii) (s : str) :
  findall (c :: s) =
  match match_placeholder (c :: s) with
  | Some (n, rest) => n :: findall rest
  | None => findall s
  end.
Proof.
  unfold findall. cbn [length findall_scan].
  destruct (match_placeholder (c :: s)) as [[n rest]|] eqn:E.
  - f_equal. apply match_placeholder_shorter in E.
    apply findall_scan_fuel; simpl in *; lia.
  - reflexivity.
Qed.

Lemma findall_char (c : ascii) (s : str) :
  c <> lbrace -> findall (c :: s) = findall s.
Proof. intros H. rewrite findall_unfold, match_placeholder_char; auto. Qed.

Lemma findall_match (n rest : str) :
  n <> [] -> ~ In rbrace n ->
  findall (lbrace :: n ++ rbrace :: rest) = n :: findall rest.
Proof.
  intros H1 H2. rewrite findall_unfold.
  assert (E : match_placeholder (lbrace :: n ++ rbrace :: rest) = Some (n, rest))
    by (apply match_placeholder_spec; auto).
  rewrite E. reflexivity.
Qed.

Lemma findall_empty_braces (s : str) :
  findall (lbrace :: rbrace :: s) = findall s.
Proof.
  rewrite findall_unfold, match_placeholder_empty.
  apply findall_char. intros E. symmetry in E. revert E. apply lbrace_neq_rbrace.
Qed.

Lemma findall_open (s : str) : ~ In rbrace s -> findall s = [].
Proof.
  induction s as [|c s IH]; intros H; [reflexivity|].
  assert (Hs : ~ In rbrace s) by (intros F; apply H; right; exact F).
  rewrite findall_unfold.
  destruct (match_placeholder (c :: s)) as [[n rest]|] eqn:E.
  - apply match_placeholder_spec in E. destruct E as [E _].
    elim H. rewrite E. right. apply in_or_app. right. left. reflexivity.
  - apply IH, Hs.
Qed.

(** Induction along the search: a match, or one character skipped. *)
Lemma findall_ind (P : str -> Prop) :
  P [] ->
  (forall n rest, n <> [] -> ~ In rbrace n -> P rest ->
                  P (lbrace :: n ++ rbrace :: rest)) ->
  (forall c s, match_placeholder (c :: s) = None -> P s -> P (c :: s)) ->
  forall s, P s.
Proof.
  intros Hnil Hmatch Hskip s.
  remember (length s) as m eqn:Hm. revert s Hm.
  induction m as [m IH] using lt_wf_ind. intros s Hm.
  destruct s as [|c s]; [exact Hnil|].
  destruct (match_placeholder (c :: s)) as [[n rest]|] eqn:E.
  - pose proof (match_placeholder_shorter _ _ _ E) as Hlt.
    apply match_placeholder_spec in E. destruct E as [E [H1 H2]].
    rewrite E. apply Hmatch; auto. apply (IH (length rest)); [lia | reflexivity].
  - apply Hskip; [exact E|]. apply (IH (length s)); [simpl in Hm; lia | reflexivity].
Qed.

(** Every name found is non-empty and holds no closing brace. *)
Lemma findall_names (s n : str) :
  In n (findall s) -> n <> [] /\ ~ In rbrace n.
Proof.
  revert n. pattern s. apply findall_ind; clear s.
  - intros n [].
  - intros m rest H1 H2 IH n. rewrite findall_match by assumption.
    intros [<- | H]; auto.
  - intros c s E IH n. rewrite findall_unfold, E. apply IH.
Qed.

(** Every name found stands between braces in the text. *)
Lemma findall_occurs (s n : str) :
  In n (findall s) -> exists a b, s = a ++ token n ++ b.
Proof.
  revert n. pattern s. apply findall_ind; clear s.
  - intros n [].
  - intros m rest H1 H2 IH n. rewrite findall_match by assumption.
    intros [<- | H].
    + exists [], rest. solve_app.
    + destruct (IH _ H) as [a [b ->]].
      exists (lbrace :: m ++ rbrace :: a), b. solve_app.
  - intros c s E IH n. rewrite findall_unfold, E. intros H.
    destruct (IH _ H) as [a [b ->]]. exists (c :: a), b. reflexivity.
Qed.

(** ** The loop that drops duplicates *)

Lemma first_index_app_in (a : str) (u l : list str) :
  In a u -> first_index a (u ++ l) = first_index a u.
Proof.
  induction u as [|y u IH]; intros H; [destruct H|]. simpl.
  destruct (str_eq_dec a y) as [E | E]; [reflexivity|].
  f_equal. apply IH. destruct H as [H | H]; [congruence | exact H].
Qed.

Lemma first_index_app_notin (a : str) (u l : list str) :
  ~ In a u -> first_index a (u ++ l) = length u + first_index a l.
Proof.
  induction u as [|y u IH]; intros H; [reflexivity|]. simpl.
  destruct (str_eq_dec a y) as [E | E].
  - elim H. left. symmetry. exact E.
  - f_equal. apply IH. intros F. apply H. right. exact F.
Qed.

Lemma first_index_lt (a : str) (u : list str) :
  In a u -> first_index a u < length u.
Proof.
  induction u as [|y u IH]; intros H; [destruct H|]. simpl.
  destruct (str_eq_dec a y) as [E | E]; [lia|].
  destruct H as [H | H]; [congruence|]. apply IH in H. lia.
Qed.

Lemma first_index_skip (a x : str) (l : list str) :
  a <> x -> first_index a (x :: l) = S (first_index a l).
Proof. intros H. simpl. destruct (str_eq_dec a x); [congruence | reflexivity]. Qed.

(** The invariant of the loop of [extract_placeholders]: [seen] and
    [unique_placeholders] hold the same names, none twice, and the names
    stand in the order of their first occurrence. *)
Lemma dedup_fold (l : list str) :
  forall st,
    (forall x, In x (seen st) <-> In x (unique_placeholders st)) ->
    NoDup (unique_placeholders st) ->
    let st' := fold_left dedup_step l st in
    (forall x, In x (seen st') <-> In x (unique_placeholders st')) /\
    NoDup (unique_placeholders st') /\
    (forall x, In x (unique_placeholders st') <->
               In x (unique_placeholders st) \/ In x l) /\
    (forall a b,
        In a (unique_placeholders st') -> In b (unique_placeholders st') ->
        (first_index a (unique_placeholders st') <
         first_index b (unique_placeholders st') <->
         first_index a (unique_placeholders st ++ l) <
         first_index b (unique_placeholders st ++ l))).
Proof.
  induction l as [|x l IH]; intros st Hseen Hnd; cbn [fold_left].
  - cbv zeta. rewrite app_nil_r.
    split; [exact Hseen|]. split; [exact Hnd|].
    split; [intros x; simpl; tauto | intros; tauto].
  - set (u := unique_placeholders st) in *.
    cbv zeta.
    destruct (in_dec str_eq_dec x (seen st)) as [Hin | Hin].
    + assert (Hstep : dedup_step st x = st).
      { unfold dedup_step.
        destruct (in_dec str_eq_dec x (seen st)); [reflexivity | contradiction]. }
      rewrite Hstep.
      destruct (IH st Hseen Hnd) as [I1 [I2 [I3 I4]]]. fold u in I3, I4.
      split; [exact I1|]. split; [exact I2|]. split.
      * intros y. rewrite I3. simpl. apply Hseen in Hin. fold u in Hin.
        split; [tauto|]. intros [H | [<- | H]]; auto.
      * intros a b Ha Hb. rewrite (I4 a b Ha Hb).
        apply Hseen in Hin. fold u in Hin.
        destruct (in_dec str_eq_dec a u) as [Au | Au];
          destruct (in_dec str_eq_dec b u) as [Bu | Bu].
        -- rewrite !first_index_app_in by assumption. tauto.
        -- rewrite !(first_index_app_in a) by assumption.
           rewrite !(first_index_app_notin b) by assumption.
           pose proof (first_index_lt a u Au). lia.
        -- rewrite !(first_index_app_in b) by assumption.
           rewrite !(first_index_app_notin a) by assumption.
           pose proof (first_index_lt b u Bu). lia.
        -- rewrite !first_index_app_notin by assumption.
           rewrite !first_index_skip by (intros ->; contradiction). lia.
    + set (st1 := {| seen := x :: seen st; unique_placeholders := u ++ [x] |}).
      assert (Hstep : dedup_step st x = st1).
      { unfold dedup_step.
        destruct (in_dec str_eq_dec x (seen st)); [contradiction | reflexivity]. }
      rewrite Hstep.
      assert (Hseen1 : forall y, In y (seen st1) <-> In y (unique_placeholders st1)).
      { intros y. simpl. rewrite in_app_iff, (Hseen y). simpl. tauto. }
      assert (Hnd1 : NoDup (unique_placeholders st1)).
      { simpl. apply NoDup_app; [exact Hnd | repeat constructor; auto |].
        intros y Hy [<- | []]. apply Hin, Hseen, Hy. }
      destruct (IH st1 Hseen1 Hnd1) as [I1 [I2 [I3 I4]]].
      split; [exact I1|]. split; [exact I2|]. split.
      * intros y. rewrite I3. simpl. rewrite in_app_iff. simpl. tauto.
      * intros a b Ha Hb. rewrite (I4 a b Ha Hb). simpl.
        rewrite <- app_assoc. reflexivity.
Qed.

Lemma extract_placeholders_spec (text : str) :
  NoDup (extract_placeholders text) /\
  (forall n, In n (extract_placeholders text) <-> In n (findall text)) /\
  (forall a b,
      In a (extract_placeholders text) -> In b (extract_placeholders text) ->
      (first_index a (extract_placeholders text) <
       first_index b (extract_placeholders text) <->
       first_index a (findall text) < first_index b (findall text))).
Proof.
  unfold extract_placeholders. cbv zeta.
  destruct (dedup_fold (findall text)
              {| seen := []; unique_placeholders := [] |}) as [_ [H2 [H3 H4]]].
  - intros x. simpl. tauto.
  - constructor.
  - split; [exact H2|]. split.
    + intros n. rewrite H3. simpl. tauto.
    + exact H4.
Qed.

Lemma extract_placeholders_in (text n : str) :
  In n (extract_placeholders text) <-> In n (findall text).
Proof. apply extract_placeholders_spec. Qed.

Lemma extract_placeholders_findall_nil (text : str) :
  findall text = [] -> extract_placeholders text = [].
Proof. intros H. unfold extract_placeholders. rewrite H. reflexivity. Qed.

(** ** Texts without nested braces *)

Section Flat.

Variable K : list str.

Lemma flat_mono (K' : list str) (s : str) :
  (forall n, In n K -> In n K') -> flat K s -> flat K' s.
Proof.
  intros HK H. induction H.
  - constructor.
  - apply flat_char; assumption.
  - apply flat_open; assumption.
  - apply flat_name; auto.
Qed.

(** Text without an opening brace may be put in front. *)
Lemma flat_plain_app (v s : str) :
  ~ In lbrace v -> flat K s -> flat K (v ++ s).
Proof.
  induction v as [|c v IH]; intros Hv Hs; [exact Hs|]. simpl.
  apply flat_char.
  - intros ->. apply Hv. left. reflexivity.
  - apply IH; [|exact Hs]. intros F. apply Hv. right. exact F.
Qed.

(** The scan is back outside any segment behind every closing brace. *)
Lemma flat_resync (a b : str) : flat K (a ++ rbrace :: b) -> flat K b.
Proof.
  intros H. remember (a ++ rbrace :: b) as s eqn:E. revert a E.
  induction H as [|c s Hc H IH|s Hs|n s Hn1 Hn2 HnK H IH]; intros a E.
  - destruct a; discriminate.
  - destruct a as [|x a]; simpl in E; injection E as -> ->.
    + exact H.
    + apply (IH a). reflexivity.
  - destruct a as [|x a]; simpl in E; injection E as E1 E2.
    + discriminate.
    + elim Hs. rewrite E2. apply in_or_app. right. left. reflexivity.
  - destruct a as [|x a]; simpl in E; injection E as E1 E2; [discriminate|].
    destruct (app_eq_app_cases _ _ _ _ E2) as [[m [-> Hm]] | [m [-> Hm]]].
    + destruct m as [|y m]; simpl in Hm.
      * injection Hm as ->. exact H.
      * injection Hm as _ ->. apply (IH m). reflexivity.
    + destruct m as [|y m]; simpl in Hm.
      * injection Hm as ->. exact H.
      * injection Hm as <- _. elim Hn2. apply in_or_app. right. left. reflexivity.
Qed.

(** A brace-delimited name that occurs in a flat text is one of [K]. *)
Lemma flat_token (s a b k : str) :
  flat K s -> s = a ++ token k ++ b -> ~ In rbrace k -> In k K.
Proof.
  intros H. revert a.
  induction H as [|c s Hc H IH|s Hs|n s Hn1 Hn2 HnK H IH]; intros a E Hk.
  - destruct a; discriminate.
  - destruct a as [|x a]; cbn in E.
    + injection E as E1 _. elim Hc. exact E1.
    + injection E as _ E2. apply (IH a); assumption.
  - elim Hs. destruct a as [|x a]; cbn in E.
    + injection E as ->. solve_in.
    + injection E as _ ->. solve_in.
  - destruct a as [|x a]; cbn in E.
    + (* the occurrence is this segment *)
      injection E as E2.
      assert (E3 : n ++ rbrace :: s = k ++ rbrace :: b)
        by (rewrite E2; solve_app).
      destruct (app_eq_app_cases _ _ _ _ E3) as [[m [-> Hm]] | [m [-> Hm]]].
      * destruct m as [|y m]; [rewrite app_nil_r; exact HnK|].
        injection Hm as <- _. elim Hk. apply in_or_app. right. left. reflexivity.
      * destruct m as [|y m]; [rewrite app_nil_r in HnK; exact HnK|].
        injection Hm as <- _. elim Hn2. apply in_or_app. right. left. reflexivity.
    + (* the occurrence starts later: not inside the name *)
      injection E as _ E2.
      destruct (app_eq_app_cases _ _ _ _ E2) as [[m [-> Hm]] | [m [-> Hm]]].
      * destruct m as [|y m]; cbn in Hm.
        -- discriminate Hm.
        -- injection Hm as _ Hm. apply (IH m); assumption.
      * destruct m as [|y m]; cbn in Hm.
        -- discriminate Hm.
        -- injection Hm as <- _.
           elim Hn1. apply in_or_app. right. left. reflexivity.
Qed.

(** The names that [findall] reports in a flat text are names of [K]. *)
Lemma flat_findall (s : str) :
  flat K s -> forall n, In n (findall s) -> In n K.
Proof.
  induction 1 as [|c s Hc H IH|s Hs|m s Hn1 Hn2 HnK H IH]; intros n.
  - intros [].
  - rewrite findall_char by exact Hc. apply IH.
  - rewrite findall_unfold, match_placeholder_open by exact Hs.
    rewrite findall_open by exact Hs. intros [].
  - destruct m as [|x m].
    + simpl. rewrite findall_empty_braces. apply IH.
    + rewrite findall_match; [|discriminate|exact Hn2].
      intros [<- | Hn]; [exact HnK | apply IH, Hn].
Qed.

End Flat.

Lemma first_rbrace (s : str) :
  ~ In rbrace s \/
  exists n rest, s = n ++ rbrace :: rest /\ ~ In rbrace n.
Proof.
  destruct (span_name s) as [n r] eqn:E. apply span_name_spec in E.
  destruct E as [-> [Hn [-> | [r' ->]]]].
  - left. rewrite app_nil_r. exact Hn.
  - right. exists n, r'. auto.
Qed.

(** A text in which no name found holds an opening brace is flat. *)
Lemma findall_flat (s : str) :
  (forall n, In n (findall s) -> ~ In lbrace n) ->
  flat ([] :: findall s) s.
Proof.
  pattern s. apply findall_ind; clear s.
  - intros _. constructor.
  - intros m rest H1 H2 IH Hall. rewrite findall_match in * by assumption.
    apply flat_name.
    + apply Hall. left. reflexivity.
    + exact H2.
    + right. left. reflexivity.
    + apply flat_mono with (K := [] :: findall rest).
      * intros n [<- | Hn]; [left; reflexivity | right; right; exact Hn].
      * apply IH. intros n Hn. apply Hall. right. exact Hn.
  - intros c s E IH Hall. rewrite findall_unfold, E in *.
    specialize (IH Hall).
    destruct (ascii_dec c lbrace) as [-> | Hc]; [|apply flat_char; assumption].
    destruct (first_rbrace s) as [Hs | [n [rest [-> Hn]]]];
      [apply flat_open; exact Hs|].
    destruct n as [|x n].
    + apply (flat_name _ [] rest); auto; [left; reflexivity|].
      apply (flat_resync _ [] rest). exact IH.
    + assert (F : match_placeholder (lbrace :: (x :: n) ++ rbrace :: rest)
                  = Some (x :: n, rest)).
      { apply match_placeholder_spec. repeat split; [discriminate | exact Hn]. }
      rewrite F in E. discriminate.
Qed.

(** ** Substitution in a text without nested braces *)

(** One pass of the substitution loop keeps a text flat, and no segment
    named [k] is left. *)
Lemma flat_replace (K K' : list str) (k v : str) :
  ~ In lbrace v ->
  (forall n, In n K -> n <> k -> In n K') ->
  forall s, flat K s -> flat K' (replace (token k) v s).
Proof.
  intros Hv HK s. remember (length s) as m eqn:Hm. revert s Hm.
  induction m as [m IH] using lt_wf_ind. intros s Hm Hs.
  destruct (startswith s (token k)) eqn:E.
  - apply startswith_spec in E. destruct E as [r ->].
    rewrite replace_hit by apply token_not_nil.
    apply flat_plain_app; [exact Hv|].
    apply (IH (length r)); [| reflexivity |].
    + rewrite Hm, length_app. unfold token. simpl. lia.
    + apply (flat_resync K (lbrace :: k) r).
      replace ((lbrace :: k) ++ rbrace :: r) with (token k ++ r) by solve_app.
      exact Hs.
  - inversion Hs as [E0 | c s' Hc H' E0 | s' Hs' E0 | n s' Hn1 Hn2 HnK H' E0];
      subst s.
    + rewrite replace_nil by apply token_not_nil. constructor.
    + rewrite replace_token_char by exact Hc. apply flat_char; [exact Hc|].
      apply (IH (length s')); [simpl in Hm; lia | reflexivity | exact H'].
    + rewrite replace_absent; [apply flat_open; exact Hs' | apply token_not_nil |].
      apply token_absent_without_rbrace. intros [F | F];
        [elim (lbrace_neq_rbrace F) | contradiction].
    + rewrite replace_miss by (exact E || apply token_not_nil).
      rewrite replace_token_plain by exact Hn1.
      rewrite replace_token_char
        by (intros F; symmetry in F; elim (lbrace_neq_rbrace F)).
      apply flat_name; [exact Hn1 | exact Hn2 | |].
      * apply HK; [exact HnK|]. intros ->.
        replace (lbrace :: k ++ rbrace :: s') with (token k ++ s') in E
          by solve_app.
        rewrite startswith_app in E. discriminate.
      * apply (IH (length s')); [| reflexivity | exact H'].
        rewrite Hm. simpl. rewrite length_app. simpl. lia.
Qed.

Lemma replace_placeholders_cons (text k v : str) (values : dict) :
  replace_placeholders text ((k, v) :: values) =
  replace_placeholders (replace (token k) v text) values.
Proof. reflexivity. Qed.

(** The whole loop: what is left of the names of [K] are those that are
    not keys of the mapping. *)
Lemma flat_replace_placeholders (values : dict) :
  (forall k v, In (k, v) values -> ~ In lbrace v) ->
  forall (K K' : list str) (s : str),
    (forall n, In n K -> ~ In n (keys values) -> In n K') ->
    flat K s -> flat K' (replace_placeholders s values).
Proof.
  induction values as [|[k v] values IH]; intros Hv K K' s HK Hs.
  - apply flat_mono with (K := K); [|exact Hs]. intros n Hn. apply HK; auto.
  - rewrite replace_placeholders_cons.
    apply IH with
      (K := filter (fun n => if str_eq_dec n k then false else true) K).
    + intros k' v' H. apply (Hv k' v'). right. exact H.
    + intros n Hn Hnk. apply filter_In in Hn. destruct Hn as [Hn Hne].
      destruct (str_eq_dec n k) as [-> | Hne']; [discriminate|].
      apply HK; [exact Hn|]. simpl. intros [F | F]; [congruence | contradiction].
    + apply flat_replace with (K := K); [| | exact Hs].
      * apply (Hv k v). left. reflexivity.
      * intros n Hn Hne. apply filter_In. split; [exact Hn|].
        destruct (str_eq_dec n k); [contradiction | reflexivity].
Qed.

(** A mapping none of whose tokens occurs in the text changes nothing. *)
Lemma replace_placeholders_absent (values : dict) (text : str) :
  (forall k, In k (keys values) -> occurs (token k) text = false) ->
  replace_placeholders text values = text.
Proof.
  induction values as [|[k v] values IH]; intros H; [reflexivity|].
  rewrite replace_placeholders_cons.
  rewrite replace_absent; [| apply token_not_nil | apply H; left; reflexivity].
  apply IH. intros k' Hk'. apply H. right. exact Hk'.
Qed.

(** After the substitution of a flat text, no token of a key without a
    closing brace is left. *)
Lemma replaced_flat_has_no_token (text : str) (values : dict) :
  (forall n, In n (findall text) -> ~ In lbrace n) ->
  (forall k v, In (k, v) values -> ~ In lbrace v) ->
  forall k, In k (keys values) -> ~ In rbrace k ->
            occurs (token k) (replace_placeholders text values) = false.
Proof.
  intros Hflat Hv k Hk Hkr.
  set (K' := filter (fun n => if in_dec str_eq_dec n (keys values)
                              then false else true) ([] :: findall text)).
  assert (Hr : flat K' (replace_placeholders text values)).
  { apply flat_replace_placeholders with (K := [] :: findall text).
    - exact Hv.
    - intros n Hn Hnk. apply filter_In. split; [exact Hn|].
      destruct (in_dec str_eq_dec n (keys values)); [contradiction | reflexivity].
    - apply findall_flat, Hflat. }
  apply occurs_false. intros a b E.
  pose proof (flat_token K' _ a b k Hr E Hkr) as Hin.
  apply filter_In in Hin. destruct Hin as [_ Hin].
  destruct (in_dec str_eq_dec k (keys values)); [discriminate | contradiction].
Qed.

(** ** The placeholder extractor *)

(** C9: [extract_placeholders] keeps the order of first occurrence and
    drops duplicates.  The names returned are those that [re.findall]
    reports, none is repeated, and one name stands before another exactly
    when its first occurrence among the matches does; on the text
    [Hi {Name}, re {Name} and {Role}] the result is [Name], [Role]. *)
Theorem extract_placeholders_first_occurrence (text : str) :
  NoDup (extract_placeholders text) /\
  (forall n, In n (extract_placeholders text) <-> In n (findall text)) /\
  (forall a b,
      In a (extract_placeholders text) -> In b (extract_placeholders text) ->
      (first_index a (extract_placeholders text) <
       first_index b (extract_placeholders text) <->
       first_index a (findall text) < first_index b (findall text))) /\
  extract_placeholders (py "Hi {Name}, re {Name} and {Role}") =
  [py "Name"; py "Role"].
Proof.
  destruct (extract_placeholders_spec text) as [H1 [H2 H3]].
  repeat split; try assumption; try apply H2; try apply H3; assumption.
Qed.

(** C6, as the code has it: a placeholder name never holds a closing
    brace (it may hold an opening one). *)
Theorem placeholder_names_without_rbrace (text : str) :
  Forall (fun name => ~ In rbrace name) (extract_placeholders text).
Proof.
  apply Forall_forall. intros n Hn. apply extract_placeholders_in in Hn.
  apply findall_names in Hn. apply Hn.
Qed.

(** C6 fails as stated: the name found in [{{a}] starts with a brace. *)
Lemma placeholder_name_with_lbrace :
  extract_placeholders (py "{{a}") = [py "{a"] /\
  ~ (forall n, In n (extract_placeholders (py "{{a}")) ->
               ~ In lbrace n /\ ~ In rbrace n).
Proof.
  split; [reflexivity|]. intros H.
  destruct (H (py "{a")) as [F _]; [left; reflexivity|].
  apply F. left. reflexivity.
Qed.

(** C10: no placeholder name is empty: the empty name is never returned,
    [{}] alone yields no placeholder, and a [{}] met by the search is
    passed over without a match. *)
Theorem placeholder_names_nonempty (text : str) :
  Forall (fun name => name <> []) (extract_placeholders text) /\
  ~ In [] (extract_placeholders text) /\
  extract_placeholders (py "{}") = [] /\
  extract_placeholders (py "{}" ++ text) = extract_placeholders text.
Proof.
  assert (H : forall n, In n (extract_placeholders text) -> n <> []).
  { intros n Hn. apply extract_placeholders_in in Hn.
    apply findall_names in Hn. apply Hn. }
  split; [apply Forall_forall; exact H|].
  split; [intros F; apply (H [] F); reflexivity|].
  split; [reflexivity|].
  unfold extract_placeholders.
  change (py "{}" ++ text) with (lbrace :: rbrace :: text).
  rewrite findall_empty_braces. reflexivity.
Qed.

(** ** Substitution followed by extraction *)

(** C4, as the code has it: when no placeholder name of the text holds an
    opening brace (no placeholder is nested in another), the mapping covers
    every placeholder of the text and its values hold no brace, no
    placeholder is left after the substitution. *)
Theorem roundtrip_without_nesting (text : str) (values : dict) :
  (forall n, In n (extract_placeholders text) -> ~ In lbrace n) ->
  (forall n, In n (extract_placeholders text) -> In n (keys values)) ->
  (forall k v, In (k, v) values -> brace_free v) ->
  extract_placeholders (replace_placeholders text values) = [].
Proof.
  intros Hflat Hcover Hvalues.
  apply extract_placeholders_findall_nil.
  assert (Hr : flat [[]] (replace_placeholders text values)).
  { apply flat_replace_placeholders with (K := [] :: findall text).
    - intros k v H. apply (Hvalues k v H).
    - intros n [<- | Hn] Hnk; [left; reflexivity|].
      elim Hnk. apply Hcover, extract_placeholders_in, Hn.
    - apply findall_flat. intros n Hn.
      apply Hflat, extract_placeholders_in, Hn. }
  destruct (findall (replace_placeholders text values)) as [|n l] eqn:E;
    [reflexivity|].
  assert (Hn : In n (findall (replace_placeholders text values)))
    by (rewrite E; left; reflexivity).
  pose proof (flat_findall _ _ Hr n Hn) as [<- | []].
  apply findall_names in Hn. destruct Hn as [Hn _]. elim Hn. reflexivity.
Qed.

Lemma roundtrip_without_nesting_witness :
  extract_placeholders
    (replace_placeholders (py "Dear {Name},\nyour {Role} {Name}")
       [(py "Name", py "Ann"); (py "Role", py "role"); (py "Team", py "")])
  = [].
Proof.
  apply roundtrip_without_nesting.
  - intros n Hn. vm_compute in Hn.
    destruct Hn as [<- | [<- | []]]; decide_closed.
  - intros n Hn. vm_compute in Hn.
    destruct Hn as [<- | [<- | []]]; decide_closed.
  - intros k v H. unfold brace_free.
    destruct H as [H | [H | [H | []]]]; injection H as <- <-; decide_closed.
Defined.

(** C4 fails as stated: in [{b}{a{b}}] the placeholders are [b] and [a{b];
    with brace-free values for both, entered in that order, the
    substitution of [b] turns the rest into the new placeholder [{ay}]. *)
Lemma roundtrip_nested_counterexample :
  extract_placeholders nested_text = keys nested_values /\
  (forall k v, In (k, v) nested_values -> brace_free v) /\
  replace_placeholders nested_text nested_values = py "y{ay}" /\
  extract_placeholders (replace_placeholders nested_text nested_values)
  = [py "ay"] /\
  extract_placeholders (replace_placeholders nested_text nested_values) <> [].
Proof.
  split; [reflexivity|]. split.
  - intros k v H. unfold brace_free.
    destruct H as [H | [H | []]]; injection H as <- <-; decide_closed.
  - split; [reflexivity|]. split; [reflexivity | discriminate].
Qed.

(** C7, as the code has it: the substitution is idempotent on a text
    without nested placeholders, for a mapping whose keys hold no closing
    brace and whose values hold no opening brace. *)
Theorem idempotent_without_nesting (text : str) (values : dict) :
  (forall n, In n (extract_placeholders text) -> ~ In lbrace n) ->
  (forall k v, In (k, v) values -> ~ In rbrace k /\ ~ In lbrace v) ->
  replace_placeholders (replace_placeholders text values) values =
  replace_placeholders text values.
Proof.
  intros Hflat Hvalues. apply replace_placeholders_absent. intros k Hk.
  apply replaced_flat_has_no_token.
  - intros n Hn. apply Hflat, extract_placeholders_in, Hn.
  - intros k' v' H. apply (Hvalues k' v' H).
  - exact Hk.
  - unfold keys in Hk. apply in_map_iff in Hk. destruct Hk as [[k' v'] [<- H]].
    apply (Hvalues k' v' H).
Qed.

Lemma idempotent_without_nesting_witness :
  replace_placeholders
    (replace_placeholders (py "Dear {Name},\nyour {Role} {Name} {Other}")
       [(py "Name", py "Ann}"); (py "Role", py "dev}"); (py "{x", py "")])
    [(py "Name", py "Ann}"); (py "Role", py "dev}"); (py "{x", py "")] =
  replace_placeholders (py "Dear {Name},\nyour {Role} {Name} {Other}")
    [(py "Name", py "Ann}"); (py "Role", py "dev}"); (py "{x", py "")].
Proof.
  apply idempotent_without_nesting.
  - intros n Hn. vm_compute in Hn.
    destruct Hn as [<- | [<- | [<- | []]]]; decide_closed.
  - intros k v H.
    destruct H as [H | [H | [H | []]]]; injection H as <- <-; decide_closed.
Defined.

(** C7 fails as stated: the value [a] holds no token, yet in [{{a}}] the
    first pass leaves [{a}], which the second pass replaces again. *)
Lemma idempotence_doubled_counterexample :
  (forall k v name, In (k, v) doubled_values -> In name (keys doubled_values) ->
                    occurs (token name) v = false) /\
  replace_placeholders doubled_text doubled_values = py "{a}" /\
  replace_placeholders (replace_placeholders doubled_text doubled_values)
    doubled_values = py "a" /\
  replace_placeholders (replace_placeholders doubled_text doubled_values)
    doubled_values <> replace_placeholders doubled_text doubled_values.
Proof.
  split.
  - intros k v name [H | []] [<- | []]. injection H as <- <-. reflexivity.
  - split; [reflexivity|]. split; [reflexivity | discriminate].
Qed.

(** ** What one pass of the substitution does *)

Lemma join_cons_char (sep : str) (c : ascii) (p : str) (ps : list str) :
  join sep ((c :: p) :: ps) = c :: join sep (p :: ps).
Proof. destruct ps; reflexivity. Qed.

Lemma join_head (sep p : str) (ps : list str) :
  exists tail, join sep (p :: ps) = p ++ tail.
Proof.
  destruct ps as [|q ps].
  - exists []. simpl. rewrite app_nil_r. reflexivity.
  - exists (sep ++ join sep (q :: ps)). reflexivity.
Qed.

(** [s.replace(old, new)] cuts [s] at the occurrences of [old] into pieces
    that hold no occurrence, and joins the pieces with [new]. *)
Lemma replace_pieces (old new : str) :
  old <> [] ->
  forall s, exists p ps,
    s = join old (p :: ps) /\
    (forall q, In q (p :: ps) -> occurs old q = false) /\
    replace old new s = join new (p :: ps).
Proof.
  intros Hold s. remember (length s) as m eqn:Hm. revert s Hm.
  induction m as [m IH] using lt_wf_ind. intros s Hm.
  assert (Hnil : occurs old [] = false)
    by (destruct old; [congruence | reflexivity]).
  destruct (startswith s old) eqn:E.
  - apply startswith_spec in E. destruct E as [r ->].
    destruct (IH (length r)) with (s := r) as [p [ps [H1 [H2 H3]]]];
      [| reflexivity |].
    + rewrite Hm, length_app. destruct old; [congruence | simpl; lia].
    + exists [], (p :: ps). split; [|split].
      * change (join old ([] :: p :: ps)) with (old ++ join old (p :: ps)).
        rewrite <- H1. reflexivity.
      * intros q [<- | Hq]; [exact Hnil | apply H2, Hq].
      * rewrite replace_hit by exact Hold. rewrite H3. reflexivity.
  - destruct s as [|c s].
    + exists [], []. split; [reflexivity|]. split.
      * intros q [<- | []]. exact Hnil.
      * apply replace_nil, Hold.
    + destruct (IH (length s)) with (s := s) as [p [ps [H1 [H2 H3]]]];
        [simpl in Hm; lia | reflexivity |].
      exists (c :: p), ps. split; [|split].
      * rewrite join_cons_char, <- H1. reflexivity.
      * intros q [<- | Hq]; [| apply H2; right; exact Hq].
        simpl. apply orb_false_iff. split; [| apply H2; left; reflexivity].
        destruct (startswith (c :: p) old) eqn:F; [|reflexivity].
        apply startswith_spec in F. destruct F as [x F].
        destruct (join_head old p ps) as [tail Ht].
        assert (G : startswith (c :: s) old = true).
        { apply startswith_spec. exists (x ++ tail).
          rewrite H1, Ht, app_comm_cons, F. solve_app. }
        rewrite G in E. discriminate.
      * rewrite replace_miss by assumption. rewrite H3, join_cons_char.
        reflexivity.
Qed.

(** ** Tokens that a pass leaves alone *)

Lemma suffix_ends (x m a : str) (c : ascii) :
  x ++ [c] = a ++ m -> m <> [] -> exists m', m = m' ++ [c].
Proof.
  intros E Hm.
  destruct (app_eq_app_cases _ _ _ _ E) as [[y [-> Hy]] | [y [-> Hy]]].
  - destruct y as [|d y]; simpl in Hy.
    + exists []. symmetry. exact Hy.
    + injection Hy as _ Hy. destruct y; [|discriminate].
      symmetry in Hy. elim (Hm Hy).
  - exists y. exact Hy.
Qed.

(** An occurrence of [{k}] cannot overlap a segment [{n}] with a
    brace-free name, unless it covers it. *)
Lemma replace_keeps_token (k v n : str) :
  brace_free n -> occurs (token n) (token k) = false ->
  forall a b,
    replace (token k) v (a ++ token n ++ b) =
    replace (token k) v a ++ token n ++ replace (token k) v b.
Proof.
  intros [Hn1 Hn2] Hnk a b.
  assert (Hocc : forall x y, token k <> x ++ token n ++ y)
    by (apply occurs_false; exact Hnk).
  remember (length a) as m eqn:Hm. revert a Hm.
  induction m as [m IH] using lt_wf_ind. intros a Hm.
  destruct a as [|c a].
  - (* the scan stands at the segment *)
    rewrite replace_nil by apply token_not_nil. cbn [app].
    assert (E : startswith (token n ++ b) (token k) = false).
    { destruct (startswith (token n ++ b) (token k)) eqn:E; [|reflexivity].
      apply startswith_spec in E. destruct E as [r E].
      assert (E' : n ++ rbrace :: b = k ++ rbrace :: r).
      { unfold token in E. cbn in E. injection E as E. rewrite <- !app_assoc in E.
        exact E. }
      destruct (app_eq_app_cases _ _ _ _ E') as [[x [-> Hx]] | [x [-> Hx]]].
      - destruct x as [|d x].
        + elim (Hocc [] []). rewrite !app_nil_r. reflexivity.
        + injection Hx as <- _. elim (Hocc [] (x ++ [rbrace])). solve_app.
      - destruct x as [|d x].
        + elim (Hocc [] []). rewrite !app_nil_r. reflexivity.
        + injection Hx as <- _. elim Hn2. solve_in. }
    assert (R : token n ++ b = lbrace :: n ++ rbrace :: b) by solve_app.
    rewrite R in E |- *.
    rewrite replace_miss; [| apply token_not_nil | exact E].
    rewrite replace_token_plain by exact Hn1.
    rewrite replace_token_char
      by (intros F; symmetry in F; elim (lbrace_neq_rbrace F)).
    solve_app.
  - destruct (startswith ((c :: a) ++ token n ++ b) (token k)) eqn:E.
    + apply startswith_spec in E. destruct E as [r E].
      destruct (app_eq_app_cases _ _ _ _ E) as [[x [Hx1 Hx2]] | [x [Hx1 Hx2]]].
      * (* the occurrence straddles the end of [a] *)
        destruct x as [|d x].
        -- rewrite app_nil_r in Hx1. rewrite <- Hx1.
           rewrite replace_hit by apply token_not_nil.
           assert (R : replace (token k) v (token k) = v).
           { pose proof (replace_hit (token k) v [] (token_not_nil k)) as R.
             rewrite app_nil_r, replace_nil in R by apply token_not_nil.
             rewrite app_nil_r in R. exact R. }
           rewrite R. f_equal.
           pose proof (IH 0) as I0. specialize (I0 ltac:(simpl in Hm; lia) []).
           rewrite replace_nil in I0 by apply token_not_nil.
           apply I0. reflexivity.
        -- exfalso.
           assert (Hk : (lbrace :: k) ++ [rbrace] = (c :: a) ++ d :: x)
             by (rewrite <- Hx1; reflexivity).
           destruct (suffix_ends _ _ _ _ Hk) as [x' Hx']; [discriminate|].
           rewrite Hx' in Hx1, Hx2.
           destruct (app_eq_app_cases _ _ _ _ Hx2) as [[y [Hy1 Hy2]] | [y [Hy1 Hy2]]].
           ++ (* the segment is inside the occurrence *)
              apply (Hocc (c :: a) y). rewrite Hx1, Hy1. solve_app.
           ++ (* the occurrence ends inside the segment *)
              destruct y as [|e y].
              ** apply (Hocc (c :: a) []). rewrite Hx1, Hy1. solve_app.
              ** assert (Hy : (lbrace :: n) ++ [rbrace] = x' ++ rbrace :: e :: y).
                 { change ((lbrace :: n) ++ [rbrace]) with (token n).
                   rewrite Hy1. solve_app. }
                 destruct (app_eq_app_cases _ _ _ _ Hy) as [[z [Hz1 Hz2]] | [z [Hz1 Hz2]]].
                 --- destruct z as [|f z]; [discriminate|].
                     injection Hz2 as _ Hz2. destruct z; discriminate.
                 --- destruct z as [|f z]; [discriminate|].
                     injection Hz2 as <- _.
                     assert (F : In rbrace (lbrace :: n))
                       by (rewrite Hz1; solve_in).
                     destruct F as [F | F];
                       [elim (lbrace_neq_rbrace F) | contradiction].
      * (* the occurrence lies within [a] *)
        rewrite Hx1, <- !app_assoc.
        rewrite !replace_hit by apply token_not_nil.
        rewrite (IH (length x)) with (a := x); [solve_app | | reflexivity].
        rewrite Hm, Hx1, length_app. unfold token. simpl. lia.
    + assert (E' : startswith (c :: a) (token k) = false).
      { destruct (startswith (c :: a) (token k)) eqn:F; [|reflexivity].
        apply startswith_spec in F. destruct F as [r F].
        assert (G : startswith ((c :: a) ++ token n ++ b) (token k) = true)
          by (apply startswith_spec; exists (r ++ token n ++ b);
              rewrite F; solve_app).
        rewrite G in E. discriminate. }
      cbn [app] in *.
      rewrite !replace_miss by (assumption || apply token_not_nil).
      cbn [app]. f_equal.
      apply (IH (length a)); [simpl in Hm; lia | reflexivity].
Qed.

Lemma replace_placeholders_keeps_token (values : dict) (n : str) :
  brace_free n ->
  (forall k, In k (keys values) -> occurs (token n) (token k) = false) ->
  forall text,
    occurs (token n) text = true ->
    occurs (token n) (replace_placeholders text values) = true.
Proof.
  intros Hn. induction values as [|[k v] values IH]; intros Hk text H.
  - exact H.
  - rewrite replace_placeholders_cons. apply IH.
    + intros k' Hk'. apply Hk. right. exact Hk'.
    + apply occurs_spec in H. destruct H as [a [b ->]].
      rewrite replace_keeps_token; [apply occurs_intro | exact Hn |].
      apply Hk. left. reflexivity.
Qed.

(** C8, as the code has it.  Each pass of the loop replaces every
    occurrence of the token of its key: it cuts the current text at the
    occurrences of [{name}] into pieces that hold none, and puts the value
    between the pieces.  A token [{name}] of the text whose name holds no
    brace and is no part of the token of any key is still in the output.
    A mapping none of whose tokens occurs in the text leaves the text as
    it is. *)
Theorem replace_placeholders_behaviour (text : str) (values : dict) :
  (forall k v, exists p ps,
      text = join (token k) (p :: ps) /\
      (forall q, In q (p :: ps) -> occurs (token k) q = false) /\
      replace_placeholders text ((k, v) :: values) =
      replace_placeholders (join v (p :: ps)) values) /\
  (forall name,
      brace_free name ->
      (forall k, In k (keys values) -> occurs (token name) (token k) = false) ->
      occurs (token name) text = true ->
      occurs (token name) (replace_placeholders text values) = true) /\
  ((forall k, In k (keys values) -> occurs (token k) text = false) ->
   replace_placeholders text values = text).
Proof.
  split; [|split].
  - intros k v.
    destruct (replace_pieces (token k) v (token_not_nil k) text)
      as [p [ps [H1 [H2 H3]]]].
    exists p, ps. split; [exact H1|]. split; [exact H2|].
    rewrite replace_placeholders_cons, H3. reflexivity.
  - intros name Hn Hk H. apply replace_placeholders_keeps_token; assumption.
  - apply replace_placeholders_absent.
Qed.

Lemma replace_placeholders_behaviour_witness :
  occurs (token (py "Role"))
    (replace_placeholders (py "Dear {Name}, your {Role}")
       [(py "Name", py "Ann"); (py "Team", py "{x}")]) = true /\
  replace_placeholders (py "Dear {Name}, your {Role}")
    [(py "Team", py "{x}"); (py "name", py "Ann")] =
  py "Dear {Name}, your {Role}".
Proof.
  split.
  - apply (replace_placeholders_behaviour (py "Dear {Name}, your {Role}")
             [(py "Name", py "Ann"); (py "Team", py "{x}")]).
    + unfold brace_free. decide_closed.
    + intros k [<- | [<- | []]]; reflexivity.
    + reflexivity.
  - apply (replace_placeholders_behaviour (py "Dear {Name}, your {Role}")
             [(py "Team", py "{x}"); (py "name", py "Ann")]).
    intros k [<- | [<- | []]]; reflexivity.
Defined.

(** C8 fails as stated: [a{b] is a placeholder of [{a{b}] and no key of
    the mapping, yet its token is not in the output, because the token of
    the key [b] is the end of it. *)
Lemma unmapped_placeholder_counterexample :
  In (py "a{b") (extract_placeholders overlap_text) /\
  ~ In (py "a{b") (keys overlap_values) /\
  replace_placeholders overlap_text overlap_values = py "{ax" /\
  occurs (token (py "a{b"))
    (replace_placeholders overlap_text overlap_values) = false.
Proof.
  split; [left; reflexivity|]. split; [decide_closed|].
  split; reflexivity.
Qed.

(** ** Stripping, lower case and subject lines *)

Lemma lstrip_split (s : str) :
  exists ws, s = ws ++ lstrip s /\ forall c, In c ws -> isspace c = true.
Proof.
  induction s as [|c s [ws [E H]]].
  - exists []. split; [reflexivity | intros c []].
  - simpl. destruct (isspace c) eqn:Ec.
    + exists (c :: ws). split; [simpl; f_equal; exact E|].
      intros d [<- | Hd]; [exact Ec | apply H, Hd].
    + exists []. split; [reflexivity | intros d []].
Qed.

Lemma rstrip_split (s : str) :
  exists ws, s = rstrip s ++ ws /\ forall c, In c ws -> isspace c = true.
Proof.
  unfold rstrip. destruct (lstrip_split (rev s)) as [ws [E H]].
  exists (rev ws). split.
  - rewrite <- rev_app_distr, <- E, rev_involutive. reflexivity.
  - intros c Hc. apply H, in_rev, Hc.
Qed.

(** [strip] cuts white space off both ends. *)
Lemma strip_split (s : str) :
  exists ws1 ws2,
    s = ws1 ++ strip s ++ ws2 /\
    (forall c, In c ws1 -> isspace c = true) /\
    (forall c, In c ws2 -> isspace c = true).
Proof.
  unfold strip.
  destruct (lstrip_split s) as [ws1 [E1 H1]].
  destruct (rstrip_split (lstrip s)) as [ws2 [E2 H2]].
  exists ws1, ws2. split; [|split; assumption].
  rewrite <- E2. exact E1.
Qed.

Lemma lower_char_colon (c : ascii) : lower_char c = ":"%char -> c = ":"%char.
Proof.
  destruct c as [[] [] [] [] [] [] [] []]; vm_compute;
    intros H; (reflexivity || discriminate H).
Qed.

(** No letter of [subject] is the lower case of a colon or of a brace. *)
Lemma lower_subject_letters (w : str) :
  lower w = py "subject" -> ~ In ":"%char w /\ ~ In lbrace w.
Proof.
  intros E. split; intros F; apply (in_map lower_char) in F;
    fold (lower w) in F; rewrite E in F; vm_compute in F;
    intuition discriminate.
Qed.

(** A subject line: white space, the seven letters in either case, a colon,
    and the rest. *)
Lemma subject_line_shape (line : str) :
  is_subject_line line = true ->
  exists a b,
    line = a ++ ":"%char :: b /\ ~ In ":"%char a /\ ~ In lbrace a.
Proof.
  unfold is_subject_line. intros H.
  apply startswith_spec in H. destruct H as [r H].
  destruct (strip_split line) as [ws1 [ws2 [E [H1 _]]]].
  unfold lower in H.
  destruct (strip line) as [|c1 [|c2 [|c3 [|c4 [|c5 [|c6 [|c7 [|c8 x]]]]]]]];
    try discriminate H.
  assert (Hw : lower [c1; c2; c3; c4; c5; c6; c7] = py "subject").
  { cbn in H. injection H as H1' H2' H3' H4' H5' H6' H7' _ _.
    unfold lower. cbn. congruence. }
  assert (H8 : c8 = ":"%char).
  { cbn in H. injection H as _ _ _ _ _ _ _ H8 _. apply lower_char_colon, H8. }
  subst c8. apply lower_subject_letters in Hw. destruct Hw as [Hw1 Hw2].
  exists (ws1 ++ [c1; c2; c3; c4; c5; c6; c7]), (x ++ ws2).
  split; [rewrite E; solve_app|].
  split; intros F; apply in_app_or in F; destruct F as [F | F]; auto;
    apply H1 in F; discriminate F.
Qed.

Lemma break_at_first (sep : ascii) (a b : str) :
  ~ In sep a -> break_at sep (a ++ sep :: b) = Some (a, b).
Proof.
  induction a as [|c a IH]; intros H; simpl.
  - rewrite ascii_eqb_refl. reflexivity.
  - destruct (Ascii.eqb c sep) eqn:E.
    + apply Ascii.eqb_eq in E. elim H. left. exact E.
    + rewrite IH; [reflexivity|]. intros F. apply H. right. exact F.
Qed.

(** On a subject line [line.split(':', 1)[1]] never fails. *)
Lemma subject_line_split (line : str) :
  is_subject_line line = true ->
  nth_error (split_once ":"%char line) 1 = Some (after_first_colon line).
Proof.
  intros H. destruct (subject_line_shape line H) as [a [b [-> [Ha _]]]].
  unfold split_once, after_first_colon. rewrite break_at_first by exact Ha.
  reflexivity.
Qed.

(** ** The template parser *)

Lemma parse_line_subject (st : parse_state) (line : str) :
  is_subject_line line = true ->
  parse_line st line =
  Some {| st_subject := strip (after_first_colon line);
          st_body_lines := st_body_lines st;
          st_subject_found := true |}.
Proof.
  intros H. unfold parse_line. rewrite H, subject_line_split by exact H.
  reflexivity.
Qed.

Lemma parse_line_body (st : parse_state) (line : str) :
  is_subject_line line = false ->
  parse_line st line =
  Some {| st_subject := st_subject st;
          st_body_lines := st_body_lines st ++ [line];
          st_subject_found := st_subject_found st |}.
Proof.
  intros H. unfold parse_line. rewrite H.
  destruct (st_subject_found st); reflexivity.
Qed.

(** The loop over the lines: the subject is the one of the last subject
    line met, the body lines are the other lines, in order. *)
Lemma parse_lines_spec (lines : list str) :
  forall st, exists st',
    parse_lines st lines = Some st' /\
    st_subject st' =
      match rev (filter is_subject_line lines) with
      | [] => st_subject st
      | line :: _ => strip (after_first_colon line)
      end /\
    st_body_lines st' =
      st_body_lines st ++
      filter (fun line => negb (is_subject_line line)) lines /\
    st_subject_found st' =
      st_subject_found st || existsb is_subject_line lines.
Proof.
  induction lines as [|line lines IH]; intros st.
  - exists st. simpl. rewrite app_nil_r, orb_false_r. auto.
  - cbn [parse_lines filter existsb]. destruct (is_subject_line line) eqn:E.
    + rewrite parse_line_subject by exact E.
      destruct (IH {| st_subject := strip (after_first_colon line);
                      st_body_lines := st_body_lines st;
                      st_subject_found := true |}) as [st' [H1 [H2 [H3 H4]]]].
      exists st'. split; [exact H1|]. cbn [negb]. split; [|split].
      * rewrite H2. cbn [st_subject rev].
        destruct (rev (filter is_subject_line lines)); reflexivity.
      * rewrite H3. reflexivity.
      * rewrite H4. cbn. rewrite orb_true_r. reflexivity.
    + rewrite parse_line_body by exact E.
      destruct (IH {| st_subject := st_subject st;
                      st_body_lines := st_body_lines st ++ [line];
                      st_subject_found := st_subject_found st |})
        as [st' [H1 [H2 [H3 H4]]]].
      exists st'. split; [exact H1|]. cbn [negb]. split; [|split].
      * rewrite H2. reflexivity.
      * rewrite H3. cbn [st_body_lines]. rewrite <- app_assoc. reflexivity.
      * rewrite H4. reflexivity.
Qed.

(** The parser never fails, and what it returns is determined by the
    subject lines and by the other lines. *)
Lemma extract_subject_and_body_lines (content : str) :
  extract_subject_and_body content =
  Some (subject_of_lines (split_char nl content),
        body_of_lines (split_char nl content)).
Proof.
  unfold extract_subject_and_body. cbv zeta.
  destruct (parse_lines_spec (split_char nl content)
              {| st_subject := []; st_body_lines := [];
                 st_subject_found := false |}) as [st [H1 [H2 [H3 _]]]].
  rewrite H1, H2, H3. reflexivity.
Qed.

(** C3, as the code has it: the parser never fails; the subject is the
    remainder, trimmed, behind the first colon of the LAST line whose
    trimmed, case-folded form starts with [subject:] (the empty string when
    there is no such line); every such line is left out of the body, and
    every other line is appended to the body in the original order. *)
Theorem extract_subject_and_body_spec (content : str) :
  exists subject body,
    extract_subject_and_body content = Some (subject, body) /\
    subject =
      match rev (filter is_subject_line (split_char nl content)) with
      | [] => []
      | line :: _ => strip (after_first_colon line)
      end /\
    body =
      strip (join [nl]
               (filter (fun line => negb (is_subject_line line))
                       (split_char nl content))).
Proof.
  exists (subject_of_lines (split_char nl content)),
         (body_of_lines (split_char nl content)).
  split; [apply extract_subject_and_body_lines|]. split; reflexivity.
Qed.

(** C3 fails as stated: with two subject lines the code takes the subject
    from the second one and keeps neither in the body, where the first
    one alone was to count. *)
Lemma second_subject_line_counterexample :
  extract_subject_and_body two_subjects = Some (py "B", py "x") /\
  parse_first_marker two_subjects = (py "A", py "Subject: B\nx") /\
  extract_subject_and_body two_subjects <> Some (parse_first_marker two_subjects).
Proof.
  split; [reflexivity|]. split; [reflexivity | discriminate].
Qed.

(** ** Placeholders of the raw text in the parsed template *)

Lemma occurs_trans (w l s : str) :
  occurs w l = true -> occurs l s = true -> occurs w s = true.
Proof.
  rewrite !occurs_spec. intros [a [b ->]] [a' [b' ->]].
  exists (a' ++ a), (b ++ b'). solve_app.
Qed.

(** An occurrence cannot begin in a prefix that lacks its first
    character, nor end in a suffix that lacks its last one. *)
Lemma occurs_skip_prefix (c : ascii) (w p t : str) :
  ~ In c p -> occurs (c :: w) (p ++ t) = true -> occurs (c :: w) t = true.
Proof.
  intros Hp H. apply occurs_spec in H. destruct H as [a [b E]].
  symmetry in E.
  destruct (app_eq_app_cases _ _ _ _ E) as [[m [Hm1 Hm2]] | [m [Hm1 Hm2]]].
  - destruct m as [|d m].
    + apply occurs_spec. exists [], b. symmetry. exact Hm2.
    + cbn in Hm2. injection Hm2 as <- _. elim Hp. rewrite Hm1. solve_in.
  - apply occurs_spec. exists m, b. exact Hm2.
Qed.

Lemma occurs_skip_suffix (c : ascii) (w u sp : str) :
  ~ In c sp -> occurs (w ++ [c]) (u ++ sp) = true ->
  occurs (w ++ [c]) u = true.
Proof.
  intros Hp H. apply occurs_spec in H. destruct H as [a [b E]].
  assert (E' : u ++ sp = (a ++ w) ++ c :: b) by (rewrite E; solve_app).
  destruct (app_eq_app_cases _ _ _ _ E') as [[m [Hm1 Hm2]] | [m [Hm1 Hm2]]].
  - elim Hp. rewrite Hm2. solve_in.
  - destruct m as [|d m].
    + elim Hp. cbn in Hm2. rewrite <- Hm2. solve_in.
    + cbn in Hm2. injection Hm2 as <- Hm2. apply occurs_spec.
      exists a, m. rewrite Hm1. solve_app.
Qed.

(** [strip] keeps every token of the text. *)
Lemma strip_keeps_token (n s : str) :
  occurs (token n) s = true -> occurs (token n) (strip s) = true.
Proof.
  intros H. destruct (strip_split s) as [ws1 [ws2 [E [H1 H2]]]].
  rewrite E in H. unfold token in *.
  apply occurs_skip_prefix in H.
  - rewrite app_comm_cons in H |- *. apply occurs_skip_suffix in H; [exact H|].
    intros F. apply H2 in F. discriminate F.
  - intros F. apply H1 in F. discriminate F.
Qed.

Lemma split_char_not_nil (sep : ascii) (s : str) : split_char sep s <> [].
Proof.
  destruct s as [|c s]; simpl; [discriminate|].
  destruct (Ascii.eqb c sep); [discriminate|].
  destruct (split_char sep s); discriminate.
Qed.

Lemma split_char_prefix (sep : ascii) (w b : str) :
  ~ In sep w -> exists l ls, split_char sep (w ++ b) = (w ++ l) :: ls.
Proof.
  induction w as [|c w IH]; intros H.
  - destruct (split_char sep b) as [|l ls] eqn:E.
    + elim (split_char_not_nil _ _ E).
    + exists l, ls. exact E.
  - destruct IH as [l [ls E]]; [intros F; apply H; right; exact F|].
    exists l, ls. cbn [app split_char].
    destruct (Ascii.eqb c sep) eqn:Ec.
    + apply Ascii.eqb_eq in Ec. elim H. left. exact Ec.
    + rewrite E. reflexivity.
Qed.

Lemma occurs_cons (w : str) (c : ascii) (s : str) :
  occurs w s = true -> occurs w (c :: s) = true.
Proof. intros H. simpl. rewrite H. apply orb_true_r. Qed.

(** A piece of text without a newline lies within one line. *)
Lemma split_char_occurs (sep : ascii) (w s : str) :
  ~ In sep w -> occurs w s = true ->
  exists line, In line (split_char sep s) /\ occurs w line = true.
Proof.
  intros Hw H. apply occurs_spec in H. destruct H as [a [b ->]].
  induction a as [|c a IH].
  - destruct (split_char_prefix sep w b Hw) as [l [ls E]].
    exists (w ++ l). cbn [app]. rewrite E. split; [left; reflexivity|].
    apply (occurs_intro w [] l).
  - destruct IH as [line [H1 H2]]. cbn [app split_char].
    destruct (Ascii.eqb c sep).
    + exists line. split; [right; exact H1 | exact H2].
    + destruct (split_char sep (a ++ w ++ b)) as [|l ls]; [destruct H1|].
      destruct H1 as [<- | H1].
      * exists (c :: l). split; [left; reflexivity | apply occurs_cons, H2].
      * exists line. split; [right; exact H1 | exact H2].
Qed.

Lemma occurs_refl (s : str) : occurs s s = true.
Proof.
  apply occurs_spec. exists [], []. rewrite app_nil_r. reflexivity.
Qed.

Lemma join_occurs (sep l : str) (ls : list str) :
  In l ls -> occurs l (join sep ls) = true.
Proof.
  induction ls as [|p ls IH]; intros H; [destruct H|].
  destruct ls as [|q ls].
  - destruct H as [<- | []]. apply occurs_refl.
  - change (join sep (p :: q :: ls)) with (p ++ sep ++ join sep (q :: ls)).
    destruct H as [<- | H].
    + apply (occurs_intro p [] (sep ++ join sep (q :: ls))).
    + apply occurs_app_r, occurs_app_r, IH, H.
Qed.

(** C5, as the code has it: when the raw text has at most one subject
    line, every placeholder name of the raw text that holds no newline
    appears as [{name}] in the subject or in the body that the parser
    returns, hence in their concatenation. *)
Theorem placeholders_in_parsed_template (content name : str) :
  length (filter is_subject_line (split_char nl content)) <= 1 ->
  In name (extract_placeholders content) ->
  ~ In nl name ->
  exists subject body,
    extract_subject_and_body content = Some (subject, body) /\
    (occurs (token name) subject = true \/ occurs (token name) body = true) /\
    occurs (token name) (subject ++ body) = true.
Proof.
  intros Hone Hname Hnl.
  exists (subject_of_lines (split_char nl content)),
         (body_of_lines (split_char nl content)).
  split; [apply extract_subject_and_body_lines|].
  assert (H : occurs (token name) (subject_of_lines (split_char nl content)) = true
              \/ occurs (token name) (body_of_lines (split_char nl content)) = true).
  { apply extract_placeholders_in, findall_occurs in Hname.
    destruct Hname as [a [b E]].
    assert (Hocc : occurs (token name) content = true)
      by (rewrite E; apply occurs_intro).
    destruct (split_char_occurs nl (token name) content) as [line [Hl1 Hl2]];
      [| exact Hocc |].
    { unfold token. intros [F | F]; [discriminate F|].
      apply in_app_or in F. destruct F as [F | [F | []]];
        [contradiction | discriminate F]. }
    destruct (is_subject_line line) eqn:Hs.
    - left. unfold subject_of_lines.
      assert (Hf : In line (filter is_subject_line (split_char nl content)))
        by (apply filter_In; auto).
      destruct (filter is_subject_line (split_char nl content)) as [|l1 [|l2 ls]];
        [destruct Hf | | simpl in Hone; lia].
      destruct Hf as [-> | []]. cbn [rev app].
      apply strip_keeps_token.
      destruct (subject_line_shape line Hs) as [x [y [-> [Hx1 Hx2]]]].
      unfold after_first_colon. rewrite break_at_first by exact Hx1.
      unfold token in *.
      apply (occurs_skip_prefix lbrace _ (x ++ [":"%char]) y).
      + intros F. apply in_app_or in F.
        destruct F as [F | [F | []]]; [contradiction | discriminate F].
      + rewrite <- app_assoc. exact Hl2.
    - right. unfold body_of_lines. apply strip_keeps_token.
      apply occurs_trans with (l := line); [exact Hl2|].
      apply join_occurs, filter_In. split; [exact Hl1|]. rewrite Hs. reflexivity. }
  split; [exact H|].
  destruct H as [H | H]; [apply occurs_app_l | apply occurs_app_r]; exact H.
Qed.

Lemma placeholders_in_parsed_template_witness :
  exists subject body,
    extract_subject_and_body (py "Subject: Offer for {Name}\nDear {Name},\nyour {Role}")
    = Some (subject, body) /\
    (occurs (token (py "Role")) subject = true \/
     occurs (token (py "Role")) body = true) /\
    occurs (token (py "Role")) (subject ++ body) = true.
Proof.
  apply placeholders_in_parsed_template.
  - vm_compute. lia.
  - right. left. reflexivity.
  - decide_closed.
Defined.

(** C5 fails as stated: a placeholder that begins on the subject line and
    ends on the next one is a placeholder of the raw text, and is neither
    in the subject nor in the body nor in their concatenation. *)
Lemma placeholder_across_lines_counterexample :
  extract_placeholders split_placeholder = [py "a\nb"] /\
  extract_subject_and_body split_placeholder = Some (py "{a", py "b}") /\
  occurs (token (py "a\nb")) (py "{a" ++ py "b}") = false.
Proof. repeat split; reflexivity. Qed.

(** ** The deep-link encoders *)

Lemma join_cons_nil (sep : str) (p : str) (ps : list str) :
  join sep ([] :: p :: ps) = sep ++ join sep (p :: ps).
Proof. reflexivity. Qed.

(** Replacing a one-character separator is splitting and joining. *)
Lemma replace_char_join (sep : ascii) (new s : str) :
  replace [sep] new s = join new (split_char sep s).
Proof.
  induction s as [|c s IH].
  - apply replace_nil. discriminate.
  - rewrite replace_unfold by discriminate. cbn [startswith split_char].
    destruct (Ascii.eqb c sep) eqn:E; cbn [andb].
    + cbn [length skipn]. rewrite IH.
      destruct (split_char sep s) as [|p ps] eqn:Es;
        [elim (split_char_not_nil _ _ Es)|].
      rewrite join_cons_nil. reflexivity.
    + rewrite IH.
      destruct (split_char sep s) as [|p ps] eqn:Es;
        [elim (split_char_not_nil _ _ Es)|].
      rewrite join_cons_char. reflexivity.
Qed.

(** The mail link that the code builds: the body stands behind [body=] as
    it is, only its newlines replaced. *)
Lemma create_outlook_web_link_shape (subject body to cc bcc : str) :
  create_outlook_web_link subject body to cc bcc =
  py "https://outlook.office.com/mail/deeplink/compose?" ++
  py "subject=" ++ quote subject ++
  py "&body=" ++ body_newlines_escaped body ++
  optional_param (py "to") to ++
  optional_param (py "cc") cc ++
  optional_param (py "bcc") bcc.
Proof.
  unfold create_outlook_web_link, body_newlines_escaped, optional_param.
  cbv zeta. change (py "\n") with [nl]. rewrite replace_char_join.
  destruct to as [|t0 to]; destruct cc as [|c0 cc]; destruct bcc as [|b0 bcc];
    cbn [truthy]; rewrite ?app_nil_r; reflexivity.
Qed.

(** C1, where the code departs from it: a body that holds an ampersand and
    a space.  The code puts the body into the link as it is, where the
    specification has it percent-encoded ([a%26b%20c]). *)
Theorem mail_link_body_not_encoded :
  create_outlook_web_link (py "Hi") (py "a&b c") [] [] [] =
  py "https://outlook.office.com/mail/deeplink/compose?subject=Hi&body=a&b c" /\
  mail_link_as_specified (py "Hi") (py "a&b c") [] [] [] =
  py "https://outlook.office.com/mail/deeplink/compose?subject=Hi&body=a%26b%20c".
Proof. split; reflexivity. Qed.

Lemma quote_app (a b : str) : quote (a ++ b) = quote a ++ quote b.
Proof. unfold quote. rewrite !flat_map_app. reflexivity. Qed.

Lemma decimal_digits_fuel :
  forall fuel fuel' n,
    n < fuel -> n < fuel' -> decimal_digits fuel n = decimal_digits fuel' n.
Proof.
  induction fuel as [|fuel IH]; intros fuel' n H1 H2; [lia|].
  destruct fuel' as [|fuel']; [lia|]. cbn [decimal_digits].
  destruct (n <? 10) eqn:E; [reflexivity|].
  apply Nat.ltb_ge in E. f_equal.
  pose proof (Nat.div_lt n 10). apply IH; lia.
Qed.

Lemma decimal_digits_S (fuel n : nat) :
  decimal_digits (S fuel) n =
  (if n <? 10 then [] else decimal_digits fuel (n / 10)) ++ [digit n].
Proof. reflexivity. Qed.

Lemma decimal_small (n : nat) : n < 10 -> decimal n = [digit n].
Proof.
  intros H. unfold decimal. rewrite decimal_digits_S.
  apply Nat.ltb_lt in H. rewrite H. reflexivity.
Qed.

Lemma decimal_step (n : nat) :
  10 <= n -> decimal n = decimal (n / 10) ++ [digit n].
Proof.
  intros H. unfold decimal. rewrite (decimal_digits_S n n).
  assert (E : (n <? 10) = false) by (apply Nat.ltb_ge; exact H).
  rewrite E. f_equal.
  pose proof (Nat.div_lt n 10). apply decimal_digits_fuel; lia.
Qed.

Lemma quote_digit (n : nat) (s : str) :
  quote (digit n :: s) = digit n :: quote s.
Proof.
  unfold digit. pose proof (Nat.mod_upper_bound n 10) as H.
  destruct (n mod 10) as [|[|[|[|[|[|[|[|[|[|m]]]]]]]]]];
    try reflexivity. lia.
Qed.

Lemma digit_zero : digit 0 = "0"%char.
Proof. reflexivity. Qed.

(** [%m], [%d], [%H], [%M], [%S]: two digits, which [quote] keeps. *)
Lemma quote_field2 (n : nat) :
  n <= 99 -> quote (zero_pad 2 (decimal n)) = digits2 n.
Proof.
  intros H. unfold digits2. destruct (Nat.lt_ge_cases n 10) as [Hs | Hl].
  - rewrite decimal_small by exact Hs. rewrite (Nat.div_small n 10) by exact Hs.
    unfold zero_pad. cbn [length Nat.sub repeat app].
    rewrite <- digit_zero, !quote_digit. reflexivity.
  - rewrite decimal_step by exact Hl.
    rewrite decimal_small by (apply Nat.Div0.div_lt_upper_bound; lia).
    unfold zero_pad. cbn [length Nat.sub repeat app].
    rewrite !quote_digit. reflexivity.
Qed.

(** [%Y]: four digits, which [quote] keeps. *)
Lemma quote_field4 (n : nat) :
  1000 <= n <= 9999 -> quote (zero_pad 4 (decimal n)) = digits4 n.
Proof.
  intros [H1 H2]. change 9999 with (9 * 1111) in H2. unfold digits4.
  assert (E1 : n / 10 / 10 = n / 100) by (rewrite Nat.Div0.div_div; reflexivity).
  assert (E2 : n / 100 / 10 = n / 1000) by (rewrite Nat.Div0.div_div; reflexivity).
  rewrite (decimal_step n) by lia.
  rewrite (decimal_step (n / 10)) by (apply Nat.div_le_lower_bound; lia).
  rewrite E1.
  rewrite (decimal_step (n / 100)) by (apply Nat.div_le_lower_bound; lia).
  rewrite E2.
  rewrite decimal_small by (apply Nat.Div0.div_lt_upper_bound; lia).
  unfold zero_pad. cbn [length Nat.sub repeat app].
  rewrite !quote_digit. reflexivity.
Qed.

(** The timestamp in the link: [YYYY-MM-DDTHH%3AMM%3ASS]. *)
Lemma quote_strftime_iso (d : datetime) :
  four_digit_datetime d -> quote (strftime_iso d) = iso_quoted d.
Proof.
  intros [Hy [Hm [Hd [Hh [Hmi Hs]]]]].
  unfold strftime_iso, iso_quoted. rewrite !quote_app.
  rewrite quote_field4 by exact Hy.
  rewrite !quote_field2 by lia.
  reflexivity.
Qed.

(** The calendar link that the code builds. *)
Lemma create_calendar_meeting_link_shape
    (subject body attendees : str) (start_time end_time : datetime)
    (location : str) :
  create_calendar_meeting_link subject body attendees start_time end_time
    location =
  calendar_link_with_path (py "/calendar/action/compose")
    subject body attendees start_time end_time location.
Proof.
  unfold create_calendar_meeting_link, calendar_link_with_path, optional_param,
    html_of_body.
  cbv zeta.
  destruct attendees as [|a0 attendees]; destruct location as [|l0 location];
    cbn [truthy]; rewrite ?app_nil_r; reflexivity.
Qed.

(** C2, as the code has it: the calendar link is the fixed base followed by
    the parameters [subject], [body], [startdt], [enddt], [path], then [to]
    when the attendees are not empty and [location] when it is not empty;
    the two timestamps are percent-encoded [YYYY-MM-DDTHH:MM:SS], and the
    value of [path] is the literal [/calendar/action/compose], its slashes
    not encoded. *)
Theorem calendar_link_format
    (subject body attendees : str) (start_time end_time : datetime)
    (location : str) :
  four_digit_datetime start_time ->
  four_digit_datetime end_time ->
  create_calendar_meeting_link subject body attendees start_time end_time
    location =
  py "https://outlook.office.com/calendar/0/deeplink/compose?" ++
  py "subject=" ++ quote subject ++
  py "&body=" ++ quote (html_of_body body) ++
  py "&startdt=" ++ iso_quoted start_time ++
  py "&enddt=" ++ iso_quoted end_time ++
  py "&path=/calendar/action/compose" ++
  optional_param (py "to") attendees ++
  optional_param (py "location") location.
Proof.
  intros Hs He. rewrite create_calendar_meeting_link_shape.
  unfold calendar_link_with_path.
  rewrite (quote_strftime_iso _ Hs), (quote_strftime_iso _ He).
  solve_app.
Qed.

Lemma calendar_link_format_witness :
  create_calendar_meeting_link (py "Interview") (py "Dear Ann,\n\nsee you\nsoon")
    (py "ann@example.com") noon noon (py "Teams") =
  py "https://outlook.office.com/calendar/0/deeplink/compose?" ++
  py "subject=" ++ quote (py "Interview") ++
  py "&body=" ++ quote (html_of_body (py "Dear Ann,\n\nsee you\nsoon")) ++
  py "&startdt=" ++ iso_quoted noon ++
  py "&enddt=" ++ iso_quoted noon ++
  py "&path=/calendar/action/compose" ++
  optional_param (py "to") (py "ann@example.com") ++
  optional_param (py "location") (py "Teams").
Proof.
  apply calendar_link_format; unfold four_digit_datetime, noon;
    repeat split; apply Nat.leb_le; vm_compute; reflexivity.
Defined.

(** C2 fails as stated: the link that the code builds has the slashes of
    the [path] value as they are, not as [%2F]. *)
Lemma calendar_path_counterexample :
  create_calendar_meeting_link (py "S") (py "B") (py "a@b.c") noon noon [] =
  py "https://outlook.office.com/calendar/0/deeplink/compose?subject=S&body=%3Cp%3EB%3C/p%3E&startdt=2025-03-09T12%3A00%3A00&enddt=2025-03-09T12%3A00%3A00&path=/calendar/action/compose&to=a%40b.c" /\
  create_calendar_meeting_link (py "S") (py "B") (py "a@b.c") noon noon [] <>
  calendar_link_as_specified (py "S") (py "B") (py "a@b.c") noon noon [].
Proof. split; [reflexivity | vm_compute; discriminate]. Qed.

(** ** The examples of section 8 of the specification *)

Example parse_with_subject :
  extract_subject_and_body (py "Subject: Hello\nLine1\nLine2") =
  Some (py "Hello", py "Line1\nLine2").
Proof. reflexivity. Qed.

Example parse_without_subject :
  extract_subject_and_body (py "No subject marker\nLine2") =
  Some (py "", py "No subject marker\nLine2").
Proof. reflexivity. Qed.

Example mail_link_example :
  create_outlook_web_link (py "A B") (py "line1\nline2") (py "x@y.com") [] [] =
  py "https://outlook.office.com/mail/deeplink/compose?subject=A%20B&body=line1%0D%0Aline2&to=x%40y.com".
Proof. reflexivity. Qed.

Example quote_example :
  quote (ascii_of_nat 233 :: py " ~/&") = py "%C3%A9%20~/%26".
Proof. reflexivity. Qed.

Example replace_empty_old :
  replace (py "") (py "-") (py "abc") = py "-a-b-c-".
Proof. reflexivity. Qed.

(* ===================================================================== *)
(** * Part III: further properties of the script *)
(* ===================================================================== *)

(** ** Characters of the links *)

Lemma quote_byte_chars (b : ascii) : forallb url_char (quote_byte b) = true.
Proof. destruct b as [[] [] [] [] [] [] [] []]; reflexivity. Qed.

Lemma quote_chars (s : str) : forallb url_char (quote s) = true.
Proof.
  unfold quote. induction (flat_map utf8 s) as [|b bs IH]; [reflexivity|].
  cbn [flat_map]. rewrite forallb_app, quote_byte_chars, IH. reflexivity.
Qed.

Lemma quote_without (c : ascii) (s : str) :
  url_char c = false -> ~ In c (quote s).
Proof.
  intros Hc F. pose proof (quote_chars s) as H.
  rewrite forallb_forall in H. rewrite (H c F) in Hc. discriminate.
Qed.

Lemma url_char_link_char (s : str) :
  forallb url_char s = true -> forallb link_char s = true.
Proof.
  rewrite !forallb_forall. intros H c Hc. unfold link_char.
  rewrite (H c Hc). reflexivity.
Qed.

Lemma join_in (c : ascii) (sep : str) (ls : list str) :
  In c (join sep ls) -> In c sep \/ exists l, In l ls /\ In c l.
Proof.
  induction ls as [|p ls IH]; [intros []|].
  destruct ls as [|q ls].
  - intros H. right. exists p. split; [left; reflexivity | exact H].
  - change (join sep (p :: q :: ls)) with (p ++ sep ++ join sep (q :: ls)).
    intros H. apply in_app_or in H. destruct H as [H | H].
    + right. exists p. split; [left; reflexivity | exact H].
    + apply in_app_or in H. destruct H as [H | H]; [left; exact H|].
      destruct (IH H) as [H' | [l [Hl Hc]]]; [left; exact H'|].
      right. exists l. split; [right; exact Hl | exact Hc].
Qed.

(** No line that [split] returns holds the separator. *)
Lemma split_char_no_sep (sep : ascii) (s l : str) :
  In l (split_char sep s) -> ~ In sep l.
Proof.
  revert l. induction s as [|c s IH]; intros l; cbn [split_char].
  - intros [<- | []] [].
  - destruct (Ascii.eqb c sep) eqn:E.
    + intros [<- | H]; [intros [] | apply IH, H].
    + destruct (split_char sep s) as [|l0 ls].
      * intros [<- | []] [F | []]. apply Ascii.eqb_neq in E. congruence.
      * intros [<- | H].
        -- intros [F | F]; [apply Ascii.eqb_neq in E; congruence|].
           revert F. apply IH. left. reflexivity.
        -- apply IH. right. exact H.
Qed.

Lemma split_char_single (sep : ascii) (x : str) :
  ~ In sep x -> split_char sep x = [x].
Proof.
  induction x as [|c x IH]; intros H; [reflexivity|]. cbn [split_char].
  destruct (Ascii.eqb c sep) eqn:E.
  - apply Ascii.eqb_eq in E. elim H. left. exact E.
  - rewrite IH; [reflexivity|]. intros F. apply H. right. exact F.
Qed.

Lemma split_char_app_sep (sep : ascii) (x y : str) :
  ~ In sep x -> split_char sep (x ++ sep :: y) = x :: split_char sep y.
Proof.
  induction x as [|c x IH]; intros H; cbn [app split_char].
  - rewrite ascii_eqb_refl. reflexivity.
  - destruct (Ascii.eqb c sep) eqn:E.
    + apply Ascii.eqb_eq in E. elim H. left. exact E.
    + rewrite IH; [reflexivity|]. intros F. apply H. right. exact F.
Qed.

(** ** The mail link *)

(** X2: whatever the subject, the body and the recipients are, the mail
    link holds no line feed: those of the body have become [%0D%0A], the
    other fields are quoted. *)
Theorem mail_link_without_newline (subject body to cc bcc : str) :
  ~ In nl (create_outlook_web_link subject body to cc bcc).
Proof.
  rewrite create_outlook_web_link_shape.
  assert (Hq : forall s, ~ In nl (quote s))
    by (intros s; apply quote_without; reflexivity).
  assert (Ho : forall key value,
             ~ In nl key -> ~ In nl (optional_param key value)).
  { intros key value Hk. unfold optional_param.
    destruct (truthy value); [|intros []].
    intros F. apply in_app_or in F. destruct F as [F | F];
      [vm_compute in F; intuition discriminate|].
    apply in_app_or in F. destruct F as [F | F]; [contradiction|].
    apply in_app_or in F. destruct F as [F | F];
      [vm_compute in F; intuition discriminate | apply (Hq _ F)]. }
  assert (Hb : ~ In nl (body_newlines_escaped body)).
  { unfold body_newlines_escaped. intros F. apply join_in in F.
    destruct F as [F | [l [Hl F]]];
      [vm_compute in F; intuition discriminate|].
    revert F. apply split_char_no_sep with (s := body). exact Hl. }
  intros F.
  repeat (apply in_app_or in F; destruct F as [F | F]);
    try (vm_compute in F; intuition discriminate);
    try (apply (Hq _ F)); try (apply (Hb F));
    revert F; apply Ho; vm_compute; intuition discriminate.
Qed.

(** ** The calendar link *)

Lemma optional_param_chars (key value : str) :
  forallb link_char key = true ->
  forallb link_char (optional_param key value) = true.
Proof.
  intros Hk. unfold optional_param. destruct (truthy value); [|reflexivity].
  rewrite !forallb_app, Hk, (url_char_link_char _ (quote_chars value)).
  reflexivity.
Qed.

(** X3: every character of a calendar link is a letter, a digit, one of
    [_.-~/%] or one of the delimiters [&=?:], whatever the fields hold:
    the link is plain URL text. *)
Theorem calendar_link_chars
    (subject body attendees : str) (start_time end_time : datetime)
    (location : str) :
  forallb link_char
    (create_calendar_meeting_link subject body attendees start_time end_time
       location) = true.
Proof.
  rewrite create_calendar_meeting_link_shape. unfold calendar_link_with_path.
  rewrite !forallb_app.
  rewrite !(url_char_link_char _ (quote_chars _)).
  rewrite !optional_param_chars by reflexivity.
  reflexivity.
Qed.

Lemma amp_not_url_char : url_char "&"%char = false.
Proof. reflexivity. Qed.

Lemma no_amp_app (a b : str) :
  ~ In "&"%char a -> ~ In "&"%char b -> ~ In "&"%char (a ++ b).
Proof. intros Ha Hb F. apply in_app_or in F. tauto. Qed.

Lemma no_amp_quote (s : str) : ~ In "&"%char (quote s).
Proof. apply quote_without, amp_not_url_char. Qed.

(** The parameters of a calendar link. *)
Lemma calendar_link_pieces
    (subject body attendees : str) (start_time end_time : datetime)
    (location : str) :
  create_calendar_meeting_link subject body attendees start_time end_time
    location =
  join (py "&")
    ([py "https://outlook.office.com/calendar/0/deeplink/compose?subject="
        ++ quote subject;
      py "body=" ++ quote (html_of_body body);
      py "startdt=" ++ quote (strftime_iso start_time);
      py "enddt=" ++ quote (strftime_iso end_time);
      py "path=/calendar/action/compose"]
     ++ (if truthy attendees then [py "to=" ++ quote attendees] else [])
     ++ (if truthy location then [py "location=" ++ quote location] else [])).
Proof.
  rewrite create_calendar_meeting_link_shape.
  unfold calendar_link_with_path, optional_param.
  destruct (truthy attendees); destruct (truthy location);
    cbn [app join]; rewrite ?app_nil_r; solve_app.
Qed.

Lemma split_join_amp (ps : list str) :
  ps <> [] -> (forall p, In p ps -> ~ In "&"%char p) ->
  split_char "&"%char (join (py "&") ps) = ps.
Proof.
  induction ps as [|p ps IH]; intros Hne Hp; [congruence|].
  destruct ps as [|q ps].
  - apply split_char_single, Hp. left. reflexivity.
  - change (join (py "&") (p :: q :: ps))
      with (p ++ "&"%char :: join (py "&") (q :: ps)).
    rewrite split_char_app_sep by (apply Hp; left; reflexivity).
    f_equal. apply IH; [discriminate|]. intros r Hr. apply Hp. right. exact Hr.
Qed.

(** X4: cutting a calendar link at every [&] gives back its parameters,
    one by one and in order: [subject] (behind the base), [body],
    [startdt], [enddt], [path], then [to] when the attendees are not empty
    and [location] when it is not empty.  No field can add a parameter to
    the link or hide one. *)
Theorem calendar_link_parameters
    (subject body attendees : str) (start_time end_time : datetime)
    (location : str) :
  split_char "&"%char
    (create_calendar_meeting_link subject body attendees start_time end_time
       location) =
  [py "https://outlook.office.com/calendar/0/deeplink/compose?subject="
     ++ quote subject;
   py "body=" ++ quote (html_of_body body);
   py "startdt=" ++ quote (strftime_iso start_time);
   py "enddt=" ++ quote (strftime_iso end_time);
   py "path=/calendar/action/compose"]
  ++ (if truthy attendees then [py "to=" ++ quote attendees] else [])
  ++ (if truthy location then [py "location=" ++ quote location] else []).
Proof.
  rewrite calendar_link_pieces. apply split_join_amp; [discriminate|].
  assert (Hc : forall k s, ~ In "&"%char k -> ~ In "&"%char (k ++ quote s))
    by (intros k s Hk; apply no_amp_app; [exact Hk | apply no_amp_quote]).
  intros p Hp. apply in_app_or in Hp. destruct Hp as [Hp | Hp].
  - destruct Hp as [<- | [<- | [<- | [<- | [<- | []]]]]];
      try (apply Hc); vm_compute; intuition discriminate.
  - apply in_app_or in Hp. destruct Hp as [Hp | Hp].
    + destruct (truthy attendees); [|destruct Hp].
      destruct Hp as [<- | []]. apply Hc. vm_compute. intuition discriminate.
    + destruct (truthy location); [|destruct Hp].
      destruct Hp as [<- | []]. apply Hc. vm_compute. intuition discriminate.
Qed.



(** ** More on the template parser *)

Lemma join_split (sep : ascii) (s : str) :
  join [sep] (split_char sep s) = s.
Proof.
  induction s as [|c s IH]; [reflexivity|]. cbn [split_char].
  destruct (split_char sep s) as [|l ls] eqn:E;
    [elim (split_char_not_nil _ _ E)|].
  destruct (Ascii.eqb c sep) eqn:Ec.
  - apply Ascii.eqb_eq in Ec. subst c.
    change (join [sep] ([] :: l :: ls)) with (sep :: join [sep] (l :: ls)).
    rewrite IH. reflexivity.
  - rewrite join_cons_char, IH. reflexivity.
Qed.

Lemma filter_none_all {A : Type} (f : A -> bool) (l : list A) :
  filter f l = [] -> filter (fun x => negb (f x)) l = l.
Proof.
  induction l as [|x l IH]; [reflexivity|]. cbn [filter].
  destruct (f x); [discriminate|]. intros H. cbn [negb]. f_equal. apply IH, H.
Qed.

(** X6: a text without any subject line is not an error: the subject is
    the empty string and the body is the whole text, stripped. *)
Theorem parse_without_subject_line (content : str) :
  filter is_subject_line (split_char nl content) = [] ->
  extract_subject_and_body content = Some ([], strip content).
Proof.
  intros H. rewrite extract_subject_and_body_lines.
  unfold subject_of_lines, body_of_lines.
  rewrite H, (filter_none_all _ _ H), join_split. reflexivity.
Qed.

Lemma parse_without_subject_line_witness :
  extract_subject_and_body (py "  Dear {Name},\nthe subject: none\n") =
  Some ([], strip (py "  Dear {Name},\nthe subject: none\n")).
Proof. apply parse_without_subject_line. reflexivity. Defined.

Lemma lstrip_head (s : str) :
  lstrip s = [] \/ exists c t, lstrip s = c :: t /\ isspace c = false.
Proof.
  induction s as [|c s IH]; [left; reflexivity|]. simpl.
  destruct (isspace c) eqn:E; [exact IH|]. right. exists c, s. auto.
Qed.

Lemma lstrip_fixed (c : ascii) (t : str) :
  isspace c = false -> lstrip (c :: t) = c :: t.
Proof. intros H. simpl. rewrite H. reflexivity. Qed.

Lemma lstrip_idem (s : str) : lstrip (lstrip s) = lstrip s.
Proof.
  destruct (lstrip_head s) as [E | [c [t [E Hc]]]]; rewrite E;
    [reflexivity | apply lstrip_fixed, Hc].
Qed.

Lemma rstrip_idem (s : str) : rstrip (rstrip s) = rstrip s.
Proof. unfold rstrip. rewrite rev_involutive, lstrip_idem. reflexivity. Qed.

(** What [rstrip] leaves begins as the text began. *)
Lemma rstrip_keeps_head (c : ascii) (t : str) :
  isspace c = false -> exists t', rstrip (c :: t) = c :: t'.
Proof.
  intros Hc. destruct (rstrip_split (c :: t)) as [ws [E Hws]].
  destruct (rstrip (c :: t)) as [|d t'] eqn:R.
  - simpl in E. rewrite <- E in Hws.
    rewrite (Hws c) in Hc; [discriminate | left; reflexivity].
  - simpl in E. injection E as <- _. exists t'. reflexivity.
Qed.

Lemma strip_idem (s : str) : strip (strip s) = strip s.
Proof.
  unfold strip. destruct (lstrip_head s) as [E | [c [t [E Hc]]]]; rewrite E.
  - reflexivity.
  - destruct (rstrip_keeps_head c t Hc) as [t' R]. rewrite R.
    rewrite (lstrip_fixed c t' Hc), <- R. apply rstrip_idem.
Qed.

Lemma strip_in (c : ascii) (s : str) : In c (strip s) -> In c s.
Proof.
  intros H. destruct (strip_split s) as [ws1 [ws2 [E _]]]. rewrite E.
  apply in_or_app. right. apply in_or_app. left. exact H.
Qed.

Lemma break_at_spec (sep : ascii) (s a b : str) :
  break_at sep s = Some (a, b) -> s = a ++ sep :: b.
Proof.
  revert a b. induction s as [|c s IH]; intros a b; simpl; [discriminate|].
  destruct (Ascii.eqb c sep) eqn:E.
  - intros H. injection H as <- <-. apply Ascii.eqb_eq in E. subst c.
    reflexivity.
  - destruct (break_at sep s) as [[a' b']|]; [|discriminate].
    intros H. injection H as <- <-. rewrite (IH a' b' eq_refl). reflexivity.
Qed.

Lemma after_first_colon_in (c : ascii) (line : str) :
  In c (after_first_colon line) -> In c line.
Proof.
  unfold after_first_colon.
  destruct (break_at ":"%char line) as [[a b]|] eqn:E; [|intros []].
  apply break_at_spec in E. rewrite E. intros H.
  apply in_or_app. right. right. exact H.
Qed.

(** X7: the parser always returns; the subject it returns holds no line
    feed, and neither the subject nor the body begins or ends with white
    space: stripping them again changes nothing. *)
Theorem parsed_subject_and_body_trimmed (content : str) :
  exists subject body,
    extract_subject_and_body content = Some (subject, body) /\
    ~ In nl subject /\
    strip subject = subject /\
    strip body = body.
Proof.
  exists (subject_of_lines (split_char nl content)),
         (body_of_lines (split_char nl content)).
  split; [apply extract_subject_and_body_lines|].
  unfold subject_of_lines, body_of_lines. split; [|split].
  - destruct (rev (filter is_subject_line (split_char nl content)))
      as [|line ls] eqn:E; [intros []|].
    intros F. apply strip_in, after_first_colon_in in F.
    assert (Hl : In line (split_char nl content)).
    { assert (H : In line (rev (filter is_subject_line (split_char nl content))))
        by (rewrite E; left; reflexivity).
      apply in_rev, filter_In in H. apply H. }
    revert F. eapply split_char_no_sep. exact Hl.
  - destruct (rev (filter is_subject_line (split_char nl content)));
      [reflexivity | apply strip_idem].
  - apply strip_idem.
Qed.

(** ** Parsing the body again *)

Lemma lstrip_app_ws (w x : str) : all_space w -> lstrip (w ++ x) = lstrip x.
Proof.
  induction w as [|c w IH]; intros H; [reflexivity|]. simpl.
  rewrite (H c) by (left; reflexivity). apply IH.
  intros d Hd. apply H. right. exact Hd.
Qed.

Lemma rstrip_app_ws (x w : str) : all_space w -> rstrip (x ++ w) = rstrip x.
Proof.
  intros H. unfold rstrip. rewrite rev_app_distr, lstrip_app_ws; [reflexivity|].
  intros c Hc. apply H, in_rev, Hc.
Qed.

(** White space around a text does not count for [strip]. *)
Lemma strip_padded (w1 l w2 : str) :
  all_space w1 -> all_space w2 -> strip (w1 ++ l ++ w2) = strip l.
Proof.
  intros H1 H2. unfold strip. rewrite lstrip_app_ws by exact H1.
  destruct (lstrip_split l) as [ws [E Hws]].
  destruct (lstrip_head l) as [E0 | [c [t [E0 Hc]]]].
  - rewrite E0 in E |- *. rewrite app_nil_r in E. subst ws.
    rewrite <- (app_nil_r (l ++ w2)), lstrip_app_ws; [reflexivity|].
    intros c Hc. apply in_app_or in Hc. destruct Hc; auto.
  - rewrite E0 in E |- *. rewrite E, <- app_assoc.
    rewrite lstrip_app_ws by exact Hws.
    change ((c :: t) ++ w2) with (c :: t ++ w2).
    rewrite (lstrip_fixed c (t ++ w2) Hc).
    change (c :: t ++ w2) with ((c :: t) ++ w2).
    apply rstrip_app_ws, H2.
Qed.

Lemma padded_subject_line (l' l : str) :
  padded l' l -> is_subject_line l' = is_subject_line l.
Proof.
  intros [w1 [w2 [H1 [H2 ->]]]]. unfold is_subject_line.
  rewrite strip_padded by assumption. reflexivity.
Qed.

Lemma padded_trans (a b c : str) : padded a b -> padded b c -> padded a c.
Proof.
  intros [w1 [w2 [H1 [H2 ->]]]] [v1 [v2 [G1 [G2 ->]]]].
  exists (v1 ++ w1), (w2 ++ v2). repeat split.
  - intros x Hx. apply in_app_or in Hx. destruct Hx; auto.
  - intros x Hx. apply in_app_or in Hx. destruct Hx; auto.
  - solve_app.
Qed.

Lemma all_space_nil : all_space [].
Proof. intros c []. Qed.

Lemma all_space_cons (c : ascii) (w : str) :
  isspace c = true -> all_space w -> all_space (c :: w).
Proof. intros Hc Hw d [<- | Hd]; auto. Qed.

Lemma all_space_tail (c : ascii) (w : str) : all_space (c :: w) -> all_space w.
Proof. intros H d Hd. apply H. right. exact Hd. Qed.

(** The lines of a text, when white space is put behind it: the lines are
    the same, but that the last one is longer and further lines of white
    space may follow. *)
Lemma split_suffix_ws (w : str) :
  all_space w ->
  forall t, exists ls extra,
    split_char nl (t ++ w) = ls ++ extra /\
    Forall2 (fun l' l => exists w2, all_space w2 /\ l = l' ++ w2)
            (split_char nl t) ls.
Proof.
  intros Hw. induction t as [|c t IH].
  - destruct (split_char nl w) as [|w0 ws] eqn:E;
      [elim (split_char_not_nil _ _ E)|].
    exists [w0], ws. cbn [app]. split; [exact E|].
    constructor; [|constructor].
    exists w0. split; [|reflexivity].
    intros c Hc. apply Hw.
    assert (H : In c (join [nl] (split_char nl w))).
    { rewrite E. destruct ws as [|w1 ws]; [exact Hc|].
      change (join [nl] (w0 :: w1 :: ws))
        with (w0 ++ [nl] ++ join [nl] (w1 :: ws)).
      apply in_or_app. left. exact Hc. }
    rewrite join_split in H. exact H.
  - destruct IH as [ls [extra [E F]]]. cbn [app split_char].
    destruct (Ascii.eqb c nl).
    + exists ([] :: ls), extra. rewrite E. split; [reflexivity|].
      constructor; [|exact F].
      exists []. split; [apply all_space_nil | reflexivity].
    + rewrite E. destruct (split_char nl t) as [|a0 la] eqn:Et;
        [elim (split_char_not_nil _ _ Et)|].
      inversion F as [|a0' b0 la' lb R F' E1 E2]. subst.
      exists ((c :: b0) :: lb), extra. split; [reflexivity|].
      constructor; [|exact F'].
      destruct R as [w2 [H2 ->]]. exists w2. split; [exact H2 | reflexivity].
Qed.

(** The lines of a text, when white space is put in front of it. *)
Lemma split_prefix_ws (w x l' : str) :
  all_space w -> In l' (split_char nl x) ->
  exists l, In l (split_char nl (w ++ x)) /\ padded l' l.
Proof.
  intros Hw Hl. induction w as [|c w IH].
  - exists l'. split; [exact Hl|].
    exists [], []. split; [apply all_space_nil|].
    split; [apply all_space_nil | rewrite app_nil_r; reflexivity].
  - destruct (IH (all_space_tail _ _ Hw)) as [l [H1 H2]].
    cbn [app split_char]. destruct (Ascii.eqb c nl).
    + exists l. split; [right; exact H1 | exact H2].
    + destruct (split_char nl (w ++ x)) as [|l0 ls]; [destruct H1|].
      destruct H1 as [<- | H1].
      * exists (c :: l0). split; [left; reflexivity|].
        apply padded_trans with (b := l0); [exact H2|].
        exists [c], []. split.
        -- apply all_space_cons; [apply Hw; left; reflexivity | apply all_space_nil].
        -- split; [apply all_space_nil | rewrite app_nil_r; reflexivity].
      * exists l. split; [right; exact H1 | exact H2].
Qed.

Lemma Forall2_in_l {A B : Type} (R : A -> B -> Prop) (xs : list A) (ys : list B) :
  Forall2 R xs ys -> forall x, In x xs -> exists y, In y ys /\ R x y.
Proof.
  induction 1 as [|x0 y0 xs ys H0 H IH]; intros x; [intros []|].
  intros [<- | Hx].
  - exists y0. split; [left; reflexivity | exact H0].
  - destruct (IH x Hx) as [y [Hy Hxy]]. exists y. split; [right; exact Hy | exact Hxy].
Qed.

(** Every line of a stripped text is a line of the text, up to white space
    at its ends. *)
Lemma strip_lines (s l' : str) :
  In l' (split_char nl (strip s)) ->
  exists l, In l (split_char nl s) /\ padded l' l.
Proof.
  intros H. destruct (strip_split s) as [ws1 [ws2 [E [H1 H2]]]].
  destruct (split_suffix_ws ws2 H2 (strip s)) as [ls [extra [Es F]]].
  destruct (Forall2_in_l _ _ _ F l' H) as [l1 [Hl1 [w2 [Hw2 ->]]]].
  destruct (split_prefix_ws ws1 (strip s ++ ws2) (l' ++ w2) H1) as [l [Hl Hp]].
  - rewrite Es. apply in_or_app. left. exact Hl1.
  - exists l. rewrite E. split; [exact Hl|].
    apply padded_trans with (b := l' ++ w2); [|exact Hp].
    exists [], w2. split; [apply all_space_nil|]. split; [exact Hw2 | reflexivity].
Qed.

Lemma split_join (sep : ascii) (ls : list str) :
  ls <> [] -> (forall l, In l ls -> ~ In sep l) ->
  split_char sep (join [sep] ls) = ls.
Proof.
  induction ls as [|p ls IH]; intros Hne Hp; [congruence|].
  destruct ls as [|q ls].
  - apply split_char_single, Hp. left. reflexivity.
  - change (join [sep] (p :: q :: ls)) with (p ++ sep :: join [sep] (q :: ls)).
    rewrite split_char_app_sep by (apply Hp; left; reflexivity).
    f_equal. apply IH; [discriminate|]. intros r Hr. apply Hp. right. exact Hr.
Qed.

Lemma filter_false {A : Type} (f : A -> bool) (l : list A) :
  (forall x, In x l -> f x = false) -> filter f l = [].
Proof.
  induction l as [|x l IH]; intros H; [reflexivity|]. cbn [filter].
  rewrite (H x) by (left; reflexivity). apply IH.
  intros y Hy. apply H. right. exact Hy.
Qed.

(** The body that the parser returns holds no subject line. *)
Lemma body_without_subject_line (lines : list str) :
  (forall l, In l lines -> ~ In nl l) ->
  filter is_subject_line (split_char nl (body_of_lines lines)) = [].
Proof.
  intros Hnl. apply filter_false. intros l' Hl'. unfold body_of_lines in Hl'.
  apply strip_lines in Hl'. destruct Hl' as [l [Hl Hp]].
  rewrite (padded_subject_line _ _ Hp).
  set (bl := filter (fun line => negb (is_subject_line line)) lines) in *.
  destruct bl as [|b bl'] eqn:Eb.
  - destruct Hl as [<- | []]. reflexivity.
  - rewrite split_join in Hl.
    + rewrite <- Eb in Hl. apply filter_In in Hl. destruct Hl as [_ Hl].
      destruct (is_subject_line l); [discriminate | reflexivity].
    + discriminate.
    + intros x Hx. apply Hnl. rewrite <- Eb in Hx. apply filter_In in Hx. apply Hx.
Qed.

(** X8: parsing is idempotent on the body.  The body that the parser
    returns holds no subject line any more, and parsing it again gives the
    empty subject and the same body. *)
Theorem parse_body_again (content : str) :
  exists subject body,
    extract_subject_and_body content = Some (subject, body) /\
    filter is_subject_line (split_char nl body) = [] /\
    extract_subject_and_body body = Some ([], body).
Proof.
  exists (subject_of_lines (split_char nl content)),
         (body_of_lines (split_char nl content)).
  split; [apply extract_subject_and_body_lines|].
  assert (H : filter is_subject_line
                (split_char nl (body_of_lines (split_char nl content))) = []).
  { apply body_without_subject_line. intros l Hl.
    eapply split_char_no_sep. exact Hl. }
  split; [exact H|].
  rewrite extract_subject_and_body_lines.
  unfold subject_of_lines at 1. rewrite H. cbn [rev].
  unfold body_of_lines at 1. rewrite (filter_none_all _ _ H), join_split.
  unfold body_of_lines. rewrite strip_idem. reflexivity.
Qed.

(** ** The document loader *)




(** ** The values of the form *)

Lemma dict_set_fresh (d : dict) (k v : str) :
  ~ In k (keys d) -> dict_set d k v = d ++ [(k, v)].
Proof.
  induction d as [|[k' v'] d IH]; intros H; [reflexivity|]. cbn [dict_set].
  destruct (str_eq_dec k k') as [-> | Hne].
  - elim H. left. reflexivity.
  - cbn [app]. f_equal. apply IH. intros F. apply H. right. exact F.
Qed.

Lemma collect_fold (text_input : str -> str) (placeholders : list str) :
  forall values,
    NoDup (keys values ++ placeholders) ->
    fold_left (fun values placeholder =>
                 dict_set values placeholder (text_input placeholder))
              placeholders values =
    values ++ map (fun ph => (ph, text_input ph)) placeholders.
Proof.
  induction placeholders as [|ph phs IH]; intros values H.
  - simpl. rewrite app_nil_r. reflexivity.
  - cbn [fold_left map]. rewrite dict_set_fresh.
    + rewrite IH; [rewrite <- app_assoc; reflexivity|].
      unfold keys. rewrite map_app. cbn [map fst]. rewrite <- app_assoc. exact H.
    + apply NoDup_remove_2 in H. intros F. apply H. apply in_or_app. left. exact F.
Qed.

(** X10: the mapping that the script collects for a template has exactly
    the placeholders of the template as keys, in the order of their first
    occurrence, each with the value of its own input: since the extractor
    returns no name twice, no entry overwrites another. *)
Theorem collected_values (content : str) (text_input : str -> str) :
  collect_values (extract_placeholders content) text_input =
  map (fun ph => (ph, text_input ph)) (extract_placeholders content) /\
  keys (collect_values (extract_placeholders content) text_input) =
  extract_placeholders content.
Proof.
  assert (E : collect_values (extract_placeholders content) text_input =
              map (fun ph => (ph, text_input ph)) (extract_placeholders content)).
  { unfold collect_values. rewrite collect_fold; [reflexivity|].
    apply extract_placeholders_spec. }
  split; [exact E|]. rewrite E. unfold keys. rewrite map_map. apply map_id.
Qed.

(** ** Flat texts, line by line *)

Lemma flat_without_rbrace (K : list str) (s : str) :
  ~ In rbrace s -> flat K s.
Proof.
  induction s as [|c s IH]; intros H; [constructor|].
  assert (Hs : ~ In rbrace s) by (intros F; apply H; right; exact F).
  destruct (ascii_dec c lbrace) as [-> | Hc].
  - apply flat_open, Hs.
  - apply flat_char; [exact Hc | apply IH, Hs].
Qed.

Lemma flat_drop_prefix (K : list str) (a b : str) :
  ~ In lbrace a -> flat K (a ++ b) -> flat K b.
Proof.
  induction a as [|c a IH]; intros Ha H; [exact H|].
  assert (Hc : c <> lbrace) by (intros ->; apply Ha; left; reflexivity).
  apply IH; [intros F; apply Ha; right; exact F|].
  cbn [app] in H. inversion H; subst; [assumption | congruence | congruence].
Qed.

Lemma flat_drop_suffix (K : list str) (w : str) :
  ~ In rbrace w -> forall t, flat K (t ++ w) -> flat K t.
Proof.
  intros Hw t H. remember (t ++ w) as s eqn:E. revert t E.
  induction H as [|c s Hc H IH|s Hs|n s Hn1 Hn2 HnK H IH]; intros t E.
  - destruct t; [constructor | discriminate].
  - destruct t as [|x t]; [constructor|]. cbn [app] in E.
    injection E as -> ->. apply flat_char; [exact Hc | apply IH; reflexivity].
  - destruct t as [|x t]; [constructor|]. cbn [app] in E.
    injection E as <- ->. apply flat_open. intros F. apply Hs. solve_in.
  - destruct t as [|x t]; [constructor|]. cbn [app] in E.
    injection E as <- E.
    destruct (app_eq_app_cases _ _ _ _ E) as [[m [-> Hm]] | [m [-> Hm]]].
    + destruct m as [|y m]; cbn [app] in Hm.
      * elim Hw. rewrite <- Hm. left. reflexivity.
      * injection Hm as <- ->.
        apply flat_name; auto.
    + elim Hw. rewrite Hm. solve_in.
Qed.

Lemma all_space_no_brace (w : str) :
  all_space w -> ~ In lbrace w /\ ~ In rbrace w.
Proof. intros H. split; intros F; apply H in F; discriminate F. Qed.

Lemma flat_strip (K : list str) (s : str) : flat K s -> flat K (strip s).
Proof.
  intros H. destruct (strip_split s) as [ws1 [ws2 [E [H1 H2]]]].
  rewrite E in H.
  apply flat_drop_prefix in H; [|apply (all_space_no_brace ws1 H1)].
  apply flat_drop_suffix in H; [exact H | apply (all_space_no_brace ws2 H2)].
Qed.

Section FlatLines.

Variable K : list str.
Hypothesis names_on_one_line : forall n, In n K -> ~ In nl n.

(** Behind a line feed that stands outside every segment, the rest of a
    flat text may be exchanged for another flat text that brings no new
    closing brace. *)
Lemma flat_swap_tail (l rest tail : str) :
  flat K (l ++ nl :: rest) -> flat K tail ->
  (In rbrace tail -> In rbrace rest) ->
  flat K (l ++ tail).
Proof.
  intros H Ht Hr. remember (l ++ nl :: rest) as s eqn:E. revert l E.
  induction H as [|c s Hc H IH|s Hs|n s Hn1 Hn2 HnK H IH]; intros l E.
  - destruct l; discriminate.
  - destruct l as [|x l]; cbn [app] in *; [exact Ht|].
    injection E as -> ->. apply flat_char; [exact Hc | apply IH; reflexivity].
  - destruct l as [|x l]; cbn [app] in *; [discriminate|].
    injection E as <- ->. apply flat_open. intros F.
    apply in_app_or in F. apply Hs. destruct F as [F | F]; [solve_in|].
    apply Hr in F. solve_in.
  - destruct l as [|x l]; cbn [app] in *; [discriminate|].
    injection E as <- E.
    destruct (app_eq_app_cases _ _ _ _ E) as [[m [-> Hm]] | [m [-> Hm]]].
    + destruct m as [|y m]; cbn [app] in Hm; [discriminate|].
      injection Hm as <- ->. rewrite <- app_assoc. cbn [app].
      apply flat_name; auto.
    + destruct m as [|y m]; cbn [app] in Hm; [discriminate|].
      injection Hm as <- _. elim (names_on_one_line _ HnK). solve_in.
Qed.

Lemma flat_after_newline (a b : str) : flat K (a ++ nl :: b) -> flat K b.
Proof.
  intros H. remember (a ++ nl :: b) as s eqn:E. revert a E.
  induction H as [|c s Hc H IH|s Hs|n s Hn1 Hn2 HnK H IH]; intros a E.
  - destruct a; discriminate.
  - destruct a as [|x a]; cbn [app] in *.
    + injection E as _ ->. exact H.
    + injection E as _ ->. apply (IH a). reflexivity.
  - destruct a as [|x a]; cbn [app] in *; [discriminate|].
    injection E as _ ->. apply flat_without_rbrace. intros F. apply Hs. solve_in.
  - destruct a as [|x a]; cbn [app] in *; [discriminate|].
    injection E as _ E.
    destruct (app_eq_app_cases _ _ _ _ E) as [[m [-> Hm]] | [m [-> Hm]]].
    + destruct m as [|y m]; cbn [app] in Hm; [discriminate|].
      injection Hm as _ ->. apply (IH m). reflexivity.
    + destruct m as [|y m]; cbn [app] in Hm; [discriminate|].
      injection Hm as <- _. elim (names_on_one_line _ HnK). solve_in.
Qed.

Lemma join_cons2 (sep p q : str) (ps : list str) :
  join sep (p :: q :: ps) = p ++ sep ++ join sep (q :: ps).
Proof. reflexivity. Qed.

Lemma in_join (c : ascii) (sep l : str) (ls : list str) :
  In l ls -> In c l -> In c (join sep ls).
Proof.
  intros Hl Hc. apply (join_occurs sep) in Hl. apply occurs_spec in Hl.
  destruct Hl as [a [b ->]]. solve_in.
Qed.

Lemma rbrace_filter_join (keep : str -> bool) (lines : list str) :
  In rbrace (join [nl] (filter keep lines)) -> In rbrace (join [nl] lines).
Proof.
  intros F. apply join_in in F. destruct F as [[F | []] | [l [Hl F]]];
    [discriminate F|].
  apply filter_In in Hl. apply in_join with (l := l); [apply Hl | exact F].
Qed.

(** Every line of a flat text is flat. *)
Lemma flat_line (lines : list str) (line : str) :
  In line lines -> flat K (join [nl] lines) -> flat K line.
Proof.
  induction lines as [|l lines IH]; intros Hl H; [destruct Hl|].
  destruct lines as [|r rest].
  - destruct Hl as [<- | []]. exact H.
  - rewrite join_cons2 in H. cbn [app] in H. destruct Hl as [<- | Hl].
    + rewrite <- (app_nil_r l).
      apply flat_swap_tail with (rest := join [nl] (r :: rest));
        [exact H | constructor | intros []].
    + apply IH; [exact Hl|]. apply flat_after_newline in H. exact H.
Qed.

(** Leaving lines out of a flat text keeps it flat. *)
Lemma flat_filter_lines (keep : str -> bool) (lines : list str) :
  flat K (join [nl] lines) -> flat K (join [nl] (filter keep lines)).
Proof.
  induction lines as [|l lines IH]; intros H; [constructor|].
  destruct lines as [|r rest].
  - cbn [filter]. destruct (keep l); [exact H | constructor].
  - rewrite join_cons2 in H. cbn [app] in H.
    assert (Hrest : flat K (join [nl] (filter keep (r :: rest))))
      by (apply IH; apply flat_after_newline in H; exact H).
    change (filter keep (l :: r :: rest))
      with (if keep l then l :: filter keep (r :: rest)
            else filter keep (r :: rest)).
    destruct (keep l); [|exact Hrest].
    destruct (filter keep (r :: rest)) as [|q qs] eqn:E.
    + cbn [join]. rewrite <- (app_nil_r l).
      apply flat_swap_tail with (rest := join [nl] (r :: rest));
        [exact H | constructor | intros []].
    + rewrite join_cons2. cbn [app].
      apply flat_swap_tail with (rest := join [nl] (r :: rest)); [exact H | |].
      * apply flat_char; [discriminate | exact Hrest].
      * intros [F | F]; [discriminate F|].
        rewrite <- E in F. apply rbrace_filter_join in F. exact F.
Qed.

(** The subject and the body that the parser cuts out of a flat text are
    flat. *)
Lemma flat_parsed (content : str) :
  flat K content ->
  flat K (subject_of_lines (split_char nl content)) /\
  flat K (body_of_lines (split_char nl content)).
Proof.
  intros H. rewrite <- (join_split nl content) in H. split.
  - unfold subject_of_lines.
    destruct (rev (filter is_subject_line (split_char nl content)))
      as [|line ls] eqn:E; [constructor|].
    assert (Hl : In line (filter is_subject_line (split_char nl content))).
    { apply in_rev. rewrite E. left. reflexivity. }
    apply filter_In in Hl. destruct Hl as [Hl Hs].
    apply flat_strip. pose proof (flat_line _ _ Hl H) as Hf.
    destruct (subject_line_shape line Hs) as [a [b [-> [Ha1 Ha2]]]].
    unfold after_first_colon. rewrite break_at_first by exact Ha1.
    apply flat_drop_prefix with (a := a ++ [":"%char]).
    + intros F. apply in_app_or in F.
      destruct F as [F | [F | []]]; [contradiction | discriminate F].
    + rewrite <- app_assoc. exact Hf.
  - unfold body_of_lines. apply flat_strip, flat_filter_lines, H.
Qed.

End FlatLines.

(** A flat text all of whose segments are [{}] has no placeholder. *)
Lemma flat_no_placeholder (K : list str) (s : str) :
  flat K s -> (forall n, In n K -> n = []) -> extract_placeholders s = [].
Proof.
  intros H HK. apply extract_placeholders_findall_nil.
  destruct (findall s) as [|n l] eqn:E; [reflexivity|].
  assert (Hn : In n (findall s)) by (rewrite E; left; reflexivity).
  pose proof (flat_findall _ _ H n Hn) as Hk. apply HK in Hk.
  apply findall_names in Hn. destruct Hn as [Hn _]. contradiction.
Qed.

Lemma replace_placeholders_nil (text : str) : replace_placeholders text [] = text.
Proof. reflexivity. Qed.

Lemma fill_template_values (content : str) (text_input : str -> str) :
  fill_template content text_input =
  Some (replace_placeholders (subject_of_lines (split_char nl content))
          (collect_values (extract_placeholders content) text_input),
        replace_placeholders (body_of_lines (split_char nl content))
          (collect_values (extract_placeholders content) text_input)).
Proof.
  unfold fill_template. rewrite extract_subject_and_body_lines. cbv zeta.
  destruct (extract_placeholders content); reflexivity.
Qed.

(** X11: when no placeholder name of the template holds an opening brace
    or a line feed, and the user enters no brace, the subject and the body
    that the script shows and sends hold no placeholder any more. *)
Theorem filled_template_has_no_placeholder
    (content : str) (text_input : str -> str) :
  (forall n, In n (extract_placeholders content) ->
             ~ In lbrace n /\ ~ In nl n) ->
  (forall n, In n (extract_placeholders content) -> brace_free (text_input n)) ->
  exists final_subject final_body,
    fill_template content text_input = Some (final_subject, final_body) /\
    extract_placeholders final_subject = [] /\
    extract_placeholders final_body = [].
Proof.
  intros Hnames Hinput.
  set (values := collect_values (extract_placeholders content) text_input).
  exists (replace_placeholders (subject_of_lines (split_char nl content)) values),
         (replace_placeholders (body_of_lines (split_char nl content)) values).
  split; [apply fill_template_values|].
  assert (Hv : values = map (fun ph => (ph, text_input ph))
                            (extract_placeholders content)).
  { unfold values, collect_values. rewrite collect_fold; [reflexivity|].
    apply extract_placeholders_spec. }
  assert (Hflat : flat ([] :: findall content) content).
  { apply findall_flat. intros n Hn.
    apply Hnames, extract_placeholders_in, Hn. }
  assert (Hone : forall n, In n ([] :: findall content) -> ~ In nl n).
  { intros n [<- | Hn]; [intros []|].
    apply Hnames, extract_placeholders_in, Hn. }
  destruct (flat_parsed _ Hone content Hflat) as [Hs Hb].
  assert (Hval : forall k v, In (k, v) values -> ~ In lbrace v).
  { intros k v H. rewrite Hv in H. apply in_map_iff in H.
    destruct H as [ph [E Hph]]. injection E as <- <-.
    apply (Hinput ph Hph). }
  assert (Hkeys : forall n, In n ([] :: findall content) ->
                            ~ In n (keys values) -> In n [[]]).
  { intros n [<- | Hn] Hk; [left; reflexivity|]. elim Hk.
    rewrite Hv. unfold keys. rewrite map_map, map_id.
    apply extract_placeholders_in, Hn. }
  split; apply flat_no_placeholder with (K := [[]]);
    try (intros n [<- | []]; reflexivity);
    apply flat_replace_placeholders with (K := [] :: findall content);
    assumption.
Qed.

Lemma filled_template_has_no_placeholder_witness :
  exists final_subject final_body,
    fill_template (py "Subject: Offer for {Name}\nDear {Name},\nyour {Role} {")
      (fun ph => py "[" ++ ph ++ py "]")
    = Some (final_subject, final_body) /\
    extract_placeholders final_subject = [] /\
    extract_placeholders final_body = [].
Proof.
  apply filled_template_has_no_placeholder.
  - intros n Hn. vm_compute in Hn.
    destruct Hn as [<- | [<- | []]]; decide_closed.
  - intros n Hn. vm_compute in Hn. unfold brace_free.
    destruct Hn as [<- | [<- | []]]; decide_closed.
Defined.

(** ** The mail link, parameter by parameter *)

(** X1: the mail link as the code builds it: the base, [subject=] with the
    quoted subject, [&body=] with the body in which every line feed has
    become [%0D%0A] and nothing else is changed, then [to], [cc] and [bcc],
    quoted, for those that are not empty. *)
Theorem mail_link_format (subject body to cc bcc : str) :
  create_outlook_web_link subject body to cc bcc =
  py "https://outlook.office.com/mail/deeplink/compose?" ++
  py "subject=" ++ quote subject ++
  py "&body=" ++ join (py "%0D%0A") (split_char nl body) ++
  (if truthy to then py "&to=" ++ quote to else []) ++
  (if truthy cc then py "&cc=" ++ quote cc else []) ++
  (if truthy bcc then py "&bcc=" ++ quote bcc else []).
Proof.
  rewrite create_outlook_web_link_shape.
  unfold body_newlines_escaped, optional_param.
  destruct (truthy to); destruct (truthy cc); destruct (truthy bcc);
    reflexivity.
Qed.

Lemma mail_link_pieces (subject body to cc bcc : str) :
  create_outlook_web_link subject body to cc bcc =
  join (py "&")
    ([py "https://outlook.office.com/mail/deeplink/compose?subject="
        ++ quote subject;
      py "body=" ++ join (py "%0D%0A") (split_char nl body)]
     ++ (if truthy to then [py "to=" ++ quote to] else [])
     ++ (if truthy cc then [py "cc=" ++ quote cc] else [])
     ++ (if truthy bcc then [py "bcc=" ++ quote bcc] else [])).
Proof.
  rewrite create_outlook_web_link_shape.
  unfold body_newlines_escaped, optional_param.
  destruct (truthy to); destruct (truthy cc); destruct (truthy bcc);
    cbn [app join]; rewrite ?app_nil_r; solve_app.
Qed.

(** X12: when the body holds no ampersand, cutting the mail link at every
    [&] gives back its parameters, in order: [subject] (behind the base),
    [body], then [to], [cc] and [bcc] for those that are not empty. *)
Theorem mail_link_parameters (subject body to cc bcc : str) :
  ~ In "&"%char body ->
  split_char "&"%char (create_outlook_web_link subject body to cc bcc) =
  [py "https://outlook.office.com/mail/deeplink/compose?subject="
     ++ quote subject;
   py "body=" ++ join (py "%0D%0A") (split_char nl body)]
  ++ (if truthy to then [py "to=" ++ quote to] else [])
  ++ (if truthy cc then [py "cc=" ++ quote cc] else [])
  ++ (if truthy bcc then [py "bcc=" ++ quote bcc] else []).
Proof.
  intros Hb. rewrite mail_link_pieces. apply split_join_amp; [discriminate|].
  assert (Hc : forall k s, ~ In "&"%char k -> ~ In "&"%char (k ++ quote s))
    by (intros k s Hk; apply no_amp_app; [exact Hk | apply no_amp_quote]).
  assert (Hbody : ~ In "&"%char (py "body=" ++ join (py "%0D%0A") (split_char nl body))).
  { apply no_amp_app; [vm_compute; intuition discriminate|].
    intros F. apply join_in in F. destruct F as [F | [l [Hl F]]];
      [vm_compute in F; intuition discriminate|].
    apply Hb. rewrite <- (join_split nl body).
    apply in_join with (l := l); assumption. }
  intros p Hp. apply in_app_or in Hp. destruct Hp as [Hp | Hp].
  - destruct Hp as [<- | [<- | []]]; [|exact Hbody].
    apply Hc. vm_compute. intuition discriminate.
  - apply in_app_or in Hp. destruct Hp as [Hp | Hp].
    + destruct (truthy to); [|destruct Hp].
      destruct Hp as [<- | []]. apply Hc. vm_compute. intuition discriminate.
    + apply in_app_or in Hp. destruct Hp as [Hp | Hp].
      * destruct (truthy cc); [|destruct Hp].
        destruct Hp as [<- | []]. apply Hc. vm_compute. intuition discriminate.
      * destruct (truthy bcc); [|destruct Hp].
        destruct Hp as [<- | []]. apply Hc. vm_compute. intuition discriminate.
Qed.

Lemma mail_link_parameters_witness :
  split_char "&"%char
    (create_outlook_web_link (py "A & B") (py "line1\nline2") (py "x@y.com")
       [] []) =
  [py "https://outlook.office.com/mail/deeplink/compose?subject="
     ++ quote (py "A & B");
   py "body=" ++ join (py "%0D%0A") (split_char nl (py "line1\nline2"))]
  ++ (if truthy (py "x@y.com") then [py "to=" ++ quote (py "x@y.com")] else [])
  ++ (if truthy [] then [py "cc=" ++ quote []] else [])
  ++ (if truthy [] then [py "bcc=" ++ quote []] else []).
Proof. apply mail_link_parameters. decide_closed. Defined.

(** ** The meeting *)

(** X13: a meeting that ends before midnight.  The start and the end that
    the script passes to the calendar encoder are on the same date, and
    the end is the chosen number of minutes behind the start. *)
Theorem meeting_within_the_day
    (meeting_date : date) (meeting_start : time) (dur : duration) :
  t_hour meeting_start * 60 + t_minute meeting_start + minutes dur < 1440 ->
  exists meeting_start_time meeting_end_time,
    meeting_times meeting_date meeting_start dur =
    Some (meeting_start_time, meeting_end_time) /\
    same_date meeting_start_time meeting_end_time /\
    seconds_of_day meeting_end_time =
    seconds_of_day meeting_start_time + 60 * minutes dur.
Proof.
  intros Ht. unfold meeting_times, meeting_end_of. cbv zeta.
  set (total := t_hour meeting_start * 60 + t_minute meeting_start + minutes dur)
    in *.
  assert (E : (1440 <=? total) = false) by (apply Nat.leb_gt; exact Ht).
  rewrite E. cbn [andb].
  eexists. eexists. split; [reflexivity|]. split.
  - unfold same_date, combine. cbn. auto.
  - unfold seconds_of_day, combine. cbn [hour minute second t_hour t_minute t_second].
    assert (Hh : (total / 60) mod 24 = total / 60).
    { apply Nat.mod_small. apply Nat.Div0.div_lt_upper_bound. lia. }
    rewrite Hh. pose proof (Nat.div_mod_eq total 60) as Hd.
    unfold total in *. lia.
Qed.

Lemma meeting_within_the_day_witness :
  exists meeting_start_time meeting_end_time,
    meeting_times {| d_year := 2025; d_month := 3; d_day := 9 |}
      {| t_hour := 10; t_minute := 0; t_second := 0 |} Min60 =
    Some (meeting_start_time, meeting_end_time) /\
    same_date meeting_start_time meeting_end_time /\
    seconds_of_day meeting_end_time =
    seconds_of_day meeting_start_time + 60 * minutes Min60.
Proof. apply meeting_within_the_day; simpl; lia. Defined.

(** X14: a meeting that runs past midnight.  The end that the script
    passes to the calendar encoder is still on the meeting date, with the
    clock time wrapped around: it lies before the start. *)
Theorem meeting_past_midnight
    (meeting_date : date) (meeting_start : time) (dur : duration) :
  t_hour meeting_start <= 23 ->
  t_minute meeting_start <= 59 ->
  1440 <= t_hour meeting_start * 60 + t_minute meeting_start + minutes dur ->
  is_max_date meeting_date = false ->
  exists meeting_start_time meeting_end_time,
    meeting_times meeting_date meeting_start dur =
    Some (meeting_start_time, meeting_end_time) /\
    same_date meeting_start_time meeting_end_time /\
    seconds_of_day meeting_end_time + 86400 =
    seconds_of_day meeting_start_time + 60 * minutes dur /\
    seconds_of_day meeting_end_time < seconds_of_day meeting_start_time.
Proof.
  intros Hh Hm Ht Hd. unfold meeting_times, meeting_end_of. cbv zeta.
  set (total := t_hour meeting_start * 60 + t_minute meeting_start + minutes dur)
    in *.
  rewrite Hd, andb_false_r.
  eexists. eexists. split; [reflexivity|].
  assert (Hdur : minutes dur <= 120) by (destruct dur; simpl; lia).
  assert (Hq : (total / 60) mod 24 = total / 60 - 24).
  { pose proof (Nat.div_mod_eq total 60) as D.
    pose proof (Nat.mod_upper_bound total 60) as U.
    assert (24 <= total / 60 < 48) by (unfold total in *; lia).
    replace (total / 60) with (total / 60 - 24 + 1 * 24) at 1 by lia.
    rewrite Nat.Div0.mod_add. apply Nat.mod_small. lia. }
  pose proof (Nat.div_mod_eq total 60) as D.
  pose proof (Nat.mod_upper_bound total 60) as U.
  split; [unfold same_date, combine; cbn; auto|].
  unfold seconds_of_day, combine.
  cbn [hour minute second t_hour t_minute t_second].
  rewrite Hq. change 86400 with (24 * 3600). unfold total in *. lia.
Qed.

Lemma meeting_past_midnight_witness :
  exists meeting_start_time meeting_end_time,
    meeting_times {| d_year := 2025; d_month := 3; d_day := 9 |}
      {| t_hour := 23; t_minute := 30; t_second := 0 |} Min60 =
    Some (meeting_start_time, meeting_end_time) /\
    same_date meeting_start_time meeting_end_time /\
    seconds_of_day meeting_end_time + 86400 =
    seconds_of_day meeting_start_time + 60 * minutes Min60 /\
    seconds_of_day meeting_end_time < seconds_of_day meeting_start_time.
Proof. apply meeting_past_midnight; simpl; (lia || reflexivity). Defined.

(** ** The calendar button *)

Lemma platform_name_not_empty (p : platform) : platform_name p <> [].
Proof. destruct p; discriminate. Qed.

(** X15: the script offers a calendar link only for the interview
    template and a candidate address that is not empty, and the link it
    offers then always has all seven parameters: [to] holds the candidate
    address, and [location] the meeting link or, when that is empty, the
    name of the platform, which never is. *)
Theorem calendar_column_link
    (is_interview_template : bool) (times : option (datetime * datetime))
    (final_subject final_body meeting_attendees meeting_link : str)
    (meeting_platform : platform) (calendar_link : str) :
  calendar_column is_interview_template times final_subject final_body
    meeting_attendees meeting_link meeting_platform =
  CalendarLink calendar_link ->
  is_interview_template = true /\ meeting_attendees <> [] /\
  exists meeting_start_time meeting_end_time location,
    times = Some (meeting_start_time, meeting_end_time) /\
    location = (if truthy meeting_link then meeting_link
                else platform_name meeting_platform) /\
    location <> [] /\
    calendar_link =
    py "https://outlook.office.com/calendar/0/deeplink/compose?" ++
    py "subject=" ++ quote final_subject ++
    py "&body=" ++ quote (html_of_body final_body) ++
    py "&startdt=" ++ quote (strftime_iso meeting_start_time) ++
    py "&enddt=" ++ quote (strftime_iso meeting_end_time) ++
    py "&path=/calendar/action/compose" ++
    py "&to=" ++ quote meeting_attendees ++
    py "&location=" ++ quote location.
Proof.
  unfold calendar_column. destruct times as [[s e]|];
    [|destruct is_interview_template; discriminate].
  destruct is_interview_template; cbn [andb]; [|discriminate].
  destruct meeting_attendees as [|a0 attendees]; cbn [truthy]; [discriminate|].
  intros H. injection H as <-.
  split; [reflexivity|]. split; [discriminate|].
  exists s, e, (if truthy meeting_link then meeting_link
                else platform_name meeting_platform).
  split; [reflexivity|]. split; [reflexivity|].
  assert (Hloc : (if truthy meeting_link then meeting_link
                  else platform_name meeting_platform) <> []).
  { destruct meeting_link; cbn [truthy];
      [apply platform_name_not_empty | discriminate]. }
  split; [exact Hloc|].
  rewrite create_calendar_meeting_link_shape.
  unfold calendar_link_with_path, optional_param. cbn [truthy].
  destruct (if truthy meeting_link then meeting_link
            else platform_name meeting_platform) as [|l0 loc];
    [congruence|].
  cbn [truthy]. solve_app.
Qed.


Lemma calendar_column_link_witness :
  exists meeting_start_time meeting_end_time location,
    Some (noon, noon) = Some (meeting_start_time, meeting_end_time) /\
    location = platform_name Teams /\
    location <> [] /\
    create_calendar_meeting_link (py "S") (py "B") (py "a@b.c") noon noon
      (platform_name Teams) =
    py "https://outlook.office.com/calendar/0/deeplink/compose?" ++
    py "subject=" ++ quote (py "S") ++
    py "&body=" ++ quote (html_of_body (py "B")) ++
    py "&startdt=" ++ quote (strftime_iso meeting_start_time) ++
    py "&enddt=" ++ quote (strftime_iso meeting_end_time) ++
    py "&path=/calendar/action/compose" ++
    py "&to=" ++ quote (py "a@b.c") ++
    py "&location=" ++ quote location.
Proof.
  apply (calendar_column_link true (Some (noon, noon)) (py "S") (py "B")
           (py "a@b.c") [] Teams
           (create_calendar_meeting_link (py "S") (py "B") (py "a@b.c")
              noon noon (platform_name Teams))).
  reflexivity.
Defined.

(** ** The names shown in the template selector *)

Lemma replace_char_map (c d : ascii) (s : str) :
  replace [c] [d] s = map (fun x => if Ascii.eqb x c then d else x) s.
Proof.
  rewrite replace_char_join. induction s as [|x s IH]; [reflexivity|].
  cbn [split_char map].
  destruct (split_char c s) as [|l ls] eqn:E;
    [elim (split_char_not_nil _ _ E)|].
  destruct (Ascii.eqb x c).
  - rewrite join_cons_nil, IH. reflexivity.
  - rewrite join_cons_char, IH. reflexivity.
Qed.

Lemma replace_docx_suffix (stem : str) :
  ~ In "."%char stem -> replace (py ".docx") [] (stem ++ py ".docx") = stem.
Proof.
  induction stem as [|c stem IH]; intros H.
  - change ([] ++ py ".docx") with (py ".docx" ++ []).
    rewrite replace_hit by discriminate.
    rewrite replace_nil by discriminate. reflexivity.
  - cbn [app]. rewrite replace_miss.
    + f_equal. apply IH. intros F. apply H. right. exact F.
    + discriminate.
    + apply startswith_head. intros ->. apply H. left. reflexivity.
Qed.

(** X16: the name that the template selector shows never holds an
    underscore; for a file [stem.docx] whose stem holds no dot it is the
    stem, with a space for every underscore. *)
Theorem format_func_display (x stem : str) :
  ~ In "_"%char (format_func x) /\
  (~ In "."%char stem ->
   format_func (stem ++ py ".docx") =
   map (fun c => if Ascii.eqb c "_"%char then " "%char else c) stem).
Proof.
  unfold format_func. change (py "_") with ["_"%char].
  change (py " ") with [" "%char]. change (py "") with (@nil ascii).
  split.
  - rewrite replace_char_map. intros F. apply in_map_iff in F.
    destruct F as [c [E _]]. destruct (Ascii.eqb c "_"%char) eqn:Ec.
    + discriminate E.
    + apply Ascii.eqb_neq in Ec. congruence.
  - intros H. rewrite replace_docx_suffix by exact H. apply replace_char_map.
Qed.

Lemma format_func_display_witness :
  format_func (py "Online_Interview" ++ py ".docx") =
  map (fun c => if Ascii.eqb c "_"%char then " "%char else c)
      (py "Online_Interview").
Proof.
  apply (format_func_display [] (py "Online_Interview")). decide_closed.
Defined.

(** ** Texts without a closing brace *)

(** X17: a text that holds no closing brace, the empty text among them,
    has no placeholder, and the substitution returns it as it is, whatever
    the mapping. *)
Theorem text_without_rbrace (text : str) (values : dict) :
  ~ In rbrace text ->
  extract_placeholders text = [] /\ replace_placeholders text values = text.
Proof.
  intros H. split.
  - apply extract_placeholders_findall_nil, findall_open, H.
  - apply replace_placeholders_absent. intros k _.
    apply token_absent_without_rbrace, H.
Qed.

Lemma text_without_rbrace_witness :
  extract_placeholders (py "Dear {Name, see you") = [] /\
  replace_placeholders (py "Dear {Name, see you") [(py "Name", py "Ann")] =
  py "Dear {Name, see you".
Proof. apply text_without_rbrace. decide_closed. Defined.
